(** * FENDatabase: a shallow embedding of the streaming PGN ingestion script

    The development follows [src/FENDatabase.py] function by function:
    the string methods the script calls, the header scanner, the movetext
    skipper, the filter predicate, the per-archive stream processor, the
    completion ledger and the orchestrating [main] loop.

    Python [str] values are modelled by [string]; a character of a Rocq
    string stands for the code point of the same number, so the model
    covers the strings whose code points are below U+0100.  Exceptions are
    explicit outcomes, files and the network are an explicit [world]. *)

From Stdlib Require Import ZArith Ascii String List Lia.
From stdpp Require Import base option list gmap strings sorting.

Local Open Scope Z_scope.

(** ** Outcomes of a Python call *)

(** The exceptions the model raises.  Failures of decompression, of text
    decoding, of the disk and of an open connection ([ZstdError],
    [UnicodeDecodeError], [OSError], [ConnectionError], [Timeout]) are
    outside it: an archive of the model is the list of lines its decoding
    yields, and a request fails as a whole or delivers the whole archive. *)
Inductive exn : Type :=
  | ValueError        (* int() on a bad literal, failed tuple unpacking *)
  | AttributeError    (* method call on None *)
  | HTTPError         (* raise_for_status / network failure *)
  | FileNotFoundError.

(** A call without effects returns or raises. *)
Inductive result (A : Type) : Type :=
  | Ok (a : A)
  | Err (e : exn).
Arguments Ok {A} a.
Arguments Err {A} e.

(** A call that runs a loop under a fuel bound may also use the fuel up. *)
Inductive outcome (A : Type) : Type :=
  | Return (a : A)
  | Raise (e : exn)
  | OutOfFuel.
Arguments Return {A} a.
Arguments Raise {A} e.
Arguments OutOfFuel {A}.

(** ** The [str] methods used by the script *)

Module Str.

Definition LF : ascii := "010".
Definition CR : ascii := "013".
Definition DQUOTE : ascii := "034".

(** [str.isspace] on one character; this is also the set that [str.strip()]
    removes.  Below U+0100: TAB..CR, FS..US, SPACE, NEL and NBSP. *)
Definition is_space (c : ascii) : bool :=
  match c with
  | "009" | "010" | "011" | "012" | "013"
  | "028" | "029" | "030" | "031" | " " | "133" | "160" => true
  | _ => false
  end%char.

(** [str.isdigit] on one character: the decimal digits and, below U+0100,
    the superscripts two, three and one (U+00B2, U+00B3, U+00B9). *)
Definition is_digit (c : ascii) : bool :=
  match c with
  | "0" | "1" | "2" | "3" | "4" | "5" | "6" | "7" | "8" | "9"
  | "178" | "179" | "185" => true
  | _ => false
  end%char.

(** The white space [int()] skips around a literal (no FS..US here). *)
Definition is_int_space (c : ascii) : bool :=
  match c with
  | "009" | "010" | "011" | "012" | "013" | " " | "133" | "160" => true
  | _ => false
  end%char.

Fixpoint all (p : ascii → bool) (s : string) : bool :=
  match s with
  | EmptyString => true
  | String c r => p c && all p r
  end.

Fixpoint mem (c : ascii) (s : string) : bool :=
  match s with
  | EmptyString => false
  | String d r => bool_decide (d = c) || mem c r
  end.

(** [s.isdigit()]: at least one character and all of them digits. *)
Definition isdigit (s : string) : bool :=
  match s with
  | EmptyString => false
  | _ => all is_digit s
  end.

Fixpoint lstrip (p : ascii → bool) (s : string) : string :=
  match s with
  | EmptyString => EmptyString
  | String c r => if p c then lstrip p r else s
  end.

Fixpoint rstrip (p : ascii → bool) (s : string) : string :=
  match s with
  | EmptyString => EmptyString
  | String c r =>
      match rstrip p r with
      | EmptyString => if p c then EmptyString else String c EmptyString
      | r' => String c r'
      end
  end.

(** [s.strip()] is [strip_chars is_space s]; [s.strip(q)] for a one
    character [q] is [strip_chars (eqb q) s]. *)
Definition strip_chars (p : ascii → bool) (s : string) : string :=
  rstrip p (lstrip p s).
Definition strip (s : string) : string := strip_chars is_space s.
Definition strip_char (q : ascii) (s : string) : string :=
  strip_chars (λ c, bool_decide (c = q)) s.

Fixpoint startswith (pre s : string) : bool :=
  match pre, s with
  | EmptyString, _ => true
  | String a pre', String b s' => bool_decide (a = b) && startswith pre' s'
  | String _ _, EmptyString => false
  end.

(** [s.endswith(suf)]: some tail of [s] is [suf]. *)
Fixpoint endswith (suf s : string) : bool :=
  bool_decide (s = suf) ||
  match s with
  | EmptyString => false
  | String _ r => endswith suf r
  end.

(** [s.split(sep)] for a one character separator. *)
Fixpoint split (sep : ascii) (s : string) : list string :=
  match s with
  | EmptyString => [EmptyString]
  | String c r =>
      if bool_decide (c = sep) then EmptyString :: split sep r
      else match split sep r with
           | h :: t => String c h :: t
           | [] => [String c EmptyString]
           end
  end.

(** [s.split(sep, 1)]: at most one split, at the first separator. *)
Fixpoint split1 (sep : ascii) (s : string) : list string :=
  match s with
  | EmptyString => [EmptyString]
  | String c r =>
      if bool_decide (c = sep) then [EmptyString; r]
      else match split1 sep r with
           | h :: t => String c h :: t
           | [] => [String c EmptyString]
           end
  end.

(** [s[i:j]] with Python's treatment of negative and out of range
    bounds. *)
Definition clamp (n i : Z) : Z :=
  if i <? 0 then Z.max (i + n) 0 else Z.min i n.
Definition slice (i j : Z) (s : string) : string :=
  let n := Z.of_nat (String.length s) in
  let lo := clamp n i in
  let hi := clamp n j in
  String.substring (Z.to_nat lo) (Z.to_nat (hi - lo)) s.

(** [int(s)], base ten: optional surrounding white space, an optional
    sign, then decimal digits with single underscores allowed between
    digits.  CPython refuses literals of more than
    [sys.int_info.default_max_str_digits] digits. *)
Definition int_max_str_digits : nat := 4300.

Fixpoint int_digits (acc : Z) (after_digit : bool) (s : string) : option Z :=
  match s with
  | EmptyString => if after_digit then Some acc else None
  | String c r =>
      match Ascii.is_nat c with
      | Some d => int_digits (10 * acc + Z.of_nat d) true r
      | None =>
          if bool_decide (c = "_"%char) && after_digit
          then int_digits acc false r
          else None
      end
  end.

Fixpoint count_digits (s : string) : nat :=
  match s with
  | EmptyString => 0%nat
  | String c r =>
      match Ascii.is_nat c with
      | Some _ => S (count_digits r)
      | None => count_digits r
      end
  end.

Definition int_unsigned (s : string) : result Z :=
  match int_digits 0 false s with
  | Some v =>
      if (int_max_str_digits <? count_digits s)%nat
      then Err ValueError else Ok v
  | None => Err ValueError
  end.

Definition int (s : string) : result Z :=
  match strip_chars is_int_space s with
  | String "+" r => int_unsigned r
  | String "-" r =>
      match int_unsigned r with
      | Ok v => Ok (- v)
      | Err e => Err e
      end
  | t => int_unsigned t
  end.

End Str.

(** ** Header scanner, movetext skipper, filter predicate *)

(** A text stream is the list of the lines [readline] has still to return,
    each with its line terminator; at the end of the stream [readline]
    returns the empty string. *)
Abbreviation stream := (list string).
Abbreviation headers_t := (gmap string string).

(** The loop exit test [not line or line.strip() == ""]. *)
Definition block_end (line : string) : bool :=
  bool_decide (line = EmptyString) || bool_decide (Str.strip line = EmptyString).

(** [key, val = line[1:-2].split(" ", 1)]: the unpacking raises unless the
    split gave two parts. *)
Definition unpack2 (parts : list string) : result (string * string) :=
  match parts with
  | [key; val] => Ok (key, val)
  | _ => Err ValueError
  end.

(** The body of [if line.startswith("[")]: the key and the value the
    line adds to the dictionary. *)
Definition tag_line (line : string) : result (string * string) :=
  match unpack2 (Str.split1 " " (Str.slice 1 (-2) line)) with
  | Ok (key, val) => Ok (key, Str.strip_char Str.DQUOTE val)
  | Err e => Err e
  end.

(** [read_headers_only]: the [while True] loop, with the dictionary built so
    far as accumulator; the result carries the stream left after the call. *)
Fixpoint read_headers_loop (headers : headers_t) (s : stream)
  : result headers_t * stream :=
  match s with
  | [] => (Ok headers, [])
  | line :: rest =>
      if block_end line then (Ok headers, rest)
      else if Str.startswith "[" line then
        match tag_line line with
        | Ok (key, val) => read_headers_loop (<[key := val]> headers) rest
        | Err e => (Err e, rest)
        end
      else read_headers_loop headers rest
  end.

Definition read_headers_only (s : stream) : result headers_t * stream :=
  read_headers_loop ∅ s.

Fixpoint skip_moves (s : stream) : stream :=
  match s with
  | [] => []
  | line :: rest => if block_end line then rest else skip_moves rest
  end.

(** Python's short-circuit [and] over calls that may raise; the truth value
    of the chain is all that [if headers_pass(...)] looks at. *)
Definition and_then (x y : result bool) : result bool :=
  match x with
  | Ok true => y
  | o => o
  end.
Notation "x 'AND' y" := (and_then x y) (at level 41, right associativity).

Definition ge_int (n : result Z) (m : Z) : result bool :=
  match n with
  | Ok v => Ok (m <=? v)
  | Err e => Err e
  end.

(** Truth value of [headers.get(k)]: [None] and the empty string are false. *)
Definition truthy (v : option string) : bool :=
  match v with
  | Some (String _ _) => true
  | _ => false
  end.

Definition RATED_CLASSICAL : string := "Rated Classical game".

Definition headers_pass (headers : headers_t) (min_elo : Z) : result bool :=
  let w := headers !! "WhiteElo" in
  let b := headers !! "BlackElo" in
  let e := headers !! "Event" in
  Ok (truthy w) AND Ok (truthy b) AND
  Ok (Str.isdigit (default EmptyString w)) AND
  Ok (Str.isdigit (default EmptyString b)) AND
  ge_int (Str.int (default EmptyString w)) min_elo AND
  ge_int (Str.int (default EmptyString b)) min_elo AND
  Ok (bool_decide (e = Some RATED_CLASSICAL)).

(** ** Files, network and the state of a run *)

(** One line of [chess_games_filtered.csv] after the header line; the
    [result] cell is [headers.get("Result")], hence optional. *)
Record row : Type := Row {
  row_game_id : Z;
  row_fen : string;
  row_move : string;
  row_result : option string;
}.

(** What a run reads and writes.  [ledger] is the text of
    [processed_files.txt] ([None]: the file does not exist), [csv] the rows
    appended to the output table, [tmp] the archives cached in the [tmp]
    directory, by file name, each as the text lines its decompression
    and decoding yield (a corrupt archive is outside the model).  [fetched]
    and [games] are ghost logs: the URLs requested from the network, and
    the value of [game_id] after each increment. *)
Record world : Type := World {
  ledger : option string;
  csv : list row;
  tmp : gmap string stream;
  fetched : list string;
  games : list Z;
}.

(** Calls that may raise and that act on the world. *)
Definition M (A : Type) : Type := world → outcome A * world.

Definition ret {A} (a : A) : M A := λ w, (Return a, w).
Definition raise {A} (e : exn) : M A := λ w, (Raise e, w).
Definition bind {A B} (m : M A) (k : A → M B) : M B :=
  λ w, match m w with
       | (Return a, w') => k a w'
       | (Raise e, w') => (Raise e, w')
       | (OutOfFuel, w') => (OutOfFuel, w')
       end.
Definition lift {A} (r : result A) : M A :=
  λ w, match r with
       | Ok a => (Return a, w)
       | Err e => (Raise e, w)
       end.
Definition out_of_fuel {A} : M A := λ w, (OutOfFuel, w).

Notation "'let!' x ':=' m 'in' k" := (bind m (λ x, k))
  (at level 10, x name, m at level 100, k at level 200,
   format "'[v' 'let!'  x  ':='  m  'in' '/' k ']'").

Definition writerow (r : row) : M unit :=
  λ w, (Return tt, World (ledger w) (csv w ++ [r]) (tmp w) (fetched w) (games w)).

Definition note_game (game_id : Z) : M unit :=
  λ w, (Return tt, World (ledger w) (csv w) (tmp w) (fetched w) (games w ++ [game_id])).

Definition open_archive (name : string) : M stream :=
  λ w, match tmp w !! name with
       | Some s => (Return s, w)
       | None => (Raise FileNotFoundError, w)
       end.

Definition os_remove (name : string) : M unit :=
  λ w, match tmp w !! name with
       | Some _ =>
           (Return tt, World (ledger w) (csv w) (delete name (tmp w)) (fetched w) (games w))
       | None => (Raise FileNotFoundError, w)
       end.

(** ** The chess library *)

(** What the script uses of [python-chess]: boards, moves, and
    [chess.pgn.read_game], which reads one game from a stream and returns
    its mainline moves ([None] when it finds no game) together with the
    number of lines it consumed. *)
Class ChessLib : Type := {
  Board : Type;
  Move : Type;
  initial_board : Board;              (* chess.Board() *)
  board_fen : Board → string;         (* board.fen() *)
  move_uci : Move → string;           (* move.uci() *)
  board_push : Board → Move → Board;  (* board.push(move) *)
  read_game : stream → option (list Move) * nat;
}.

(** ** Resume helpers *)

(** Iterating over a file opened in text mode: lines end at LF, CR or
    CR LF, each handed over as LF. *)
Fixpoint readlines (s : string) : list string :=
  match s with
  | EmptyString => []
  | String c r =>
      if bool_decide (c = Str.LF) then String Str.LF EmptyString :: readlines r
      else if bool_decide (c = Str.CR) then
        String Str.LF EmptyString ::
          match r with
          | String d r' => if bool_decide (d = Str.LF) then readlines r' else readlines r
          | EmptyString => []
          end
      else match readlines r with
           | l :: t => String c l :: t
           | [] => [String c EmptyString]
           end
  end.

Definition nonempty (s : string) : bool :=
  match s with
  | EmptyString => false
  | String _ _ => true
  end.

Definition load_processed_files (file : option string) : gset string :=
  match file with
  | None => ∅
  | Some text =>
      list_to_set (filter (λ s, nonempty s = true) (map Str.strip (readlines text)))
  end.

(** [open(path, "a")] creates the file when there is none. *)
Definition mark_file_processed (name : string) : M unit :=
  λ w, (Return tt,
        World (Some (default EmptyString (ledger w) +:+ name +:+ String Str.LF EmptyString))
              (csv w) (tmp w) (fetched w) (games w)).

(** ** PGN URL list and download *)

Definition PGN_SUFFIX : string := ".pgn.zst".

(** The generator over the lines of the index, as the list it yields. *)
Fixpoint iter_pgn_urls (lines : list string) : list string :=
  match lines with
  | [] => []
  | line :: rest =>
      if nonempty line && Str.endswith PGN_SUFFIX line
      then Str.strip line :: iter_pgn_urls rest
      else iter_pgn_urls rest
  end.

(** [url.split("/")[-1]], the name [download_file] caches an archive under
    and [main] keys the ledger with. *)
Definition url_name (url : string) : string :=
  List.last (Str.split "/" url) EmptyString.

(** [net url] is the archive served at [url] ([None]: the request fails).
    The result is the name of the local file inside the [tmp] directory.
    A request that fails leaves no file behind: a download that breaks off
    half way, and the partial file it leaves, are outside the model.  The
    name is not empty for the URLs [iter_pgn_urls] yields; for a URL that
    ends in a slash the script would take the [tmp] directory itself for
    the cached file, which the model does not follow. *)
Definition download_file (net : string → option stream) (url : string) : M string :=
  let name := url_name url in
  λ w, match tmp w !! name with
       | Some _ => (Return name, w)
       | None =>
           match net url with
           | None => (Raise HTTPError, World (ledger w) (csv w) (tmp w) (fetched w ++ [url]) (games w))
           | Some bytes =>
               (Return name,
                World (ledger w) (csv w) (<[name := bytes]> (tmp w)) (fetched w ++ [url]) (games w))
           end
       end.

(** ** Stream processor *)

(** [limit and n >= limit] for an option that holds an integer or [None]:
    [None] and zero are false. *)
Definition reached (limit : option Z) (n : Z) : bool :=
  match limit with
  | Some l => negb (l =? 0) && (l <=? n)
  | None => false
  end.

(** The options of the command line that the run reads. *)
Record args : Type := Args {
  min_elo : Z;
  max_games : option Z;
  downloads : option Z;
}.

Section Processor.
Context `{ChessLib}.

(** The [for move in game.mainline_moves()] loop. *)
Fixpoint write_moves (game_id : Z) (result : option string)
    (board : Board) (moves : list Move) : M unit :=
  match moves with
  | [] => ret tt
  | move :: moves' =>
      let! _ := writerow (Row game_id (board_fen board) (move_uci move) result) in
      write_moves game_id result (board_push board move) moves'
  end.

(** One kept game: [chess.pgn.read_game] then the replay; the result is
    the stream after the game. *)
Definition keep_game (game_id : Z) (headers : headers_t) (s : stream) : M stream :=
  match read_game s with
  | (Some moves, n) =>
      let! _ := write_moves game_id (headers !! "Result") initial_board moves in
      ret (drop n s)
  | (None, _) => raise AttributeError
  end.

(** The [while True] loop of [process_pgn_file].  The progress counter
    and its printing are left out.  Every turn that does not leave the
    loop consumes at least one line, so [fuel] above the length of the
    stream is never used up (see [process_games_world]). *)
Fixpoint process_games (fuel : nat) (min_elo : Z) (max_games : option Z)
    (game_id : Z) (s : stream) : M Z :=
  match fuel with
  | O => out_of_fuel
  | S fuel' =>
      let (scanned, s1) := read_headers_only s in
      let! headers := lift scanned in
      if bool_decide (headers = ∅) then ret game_id
      else
        let game_id := game_id + 1 in
        let! _ := note_game game_id in
        let! pass := lift (headers_pass headers min_elo) in
        let! s2 := (if pass then keep_game game_id headers s1
                    else ret (skip_moves s1)) in
        if reached max_games game_id then ret game_id
        else process_games fuel' min_elo max_games game_id s2
  end.

Definition process_pgn_file (pgn_path : string) (min_elo : Z)
    (max_games : option Z) (start_game_id : Z) : M Z :=
  let! s := open_archive pgn_path in
  process_games (S (length s)) min_elo max_games start_game_id s.

(** ** Main *)

(** The [for url in iter_pgn_urls(INDEX_URL)] loop. *)
Fixpoint main_loop (a : args) (net : string → option stream)
    (urls : list string) (processed_files : gset string)
    (game_id downloaded : Z) : M Z :=
  match urls with
  | [] => ret game_id
  | url :: urls' =>
      if reached (downloads a) downloaded then ret game_id
      else
        let name := url_name url in
        if bool_decide (name ∈ processed_files)
        then main_loop a net urls' processed_files game_id downloaded
        else
          let! path := download_file net url in
          let downloaded := downloaded + 1 in
          let! game_id := process_pgn_file path (min_elo a) (max_games a) game_id in
          let! _ := mark_file_processed name in
          let processed_files := processed_files ∪ {[name]} in
          let! _ := os_remove path in
          if reached (max_games a) game_id then ret game_id
          else main_loop a net urls' processed_files game_id downloaded
  end.

(** [main] after argument parsing and directory set-up.  [index] is the
    text of the remote index, line by line ([None]: it cannot be
    fetched); the result is the total printed at the end. *)
Definition main (a : args) (index : option (list string))
    (net : string → option stream) : M Z :=
  λ w,
    let processed_files := load_processed_files (ledger w) in
    match index with
    | None => (Raise HTTPError, w)
    | Some lines => main_loop a net (iter_pgn_urls lines) processed_files 0 0 w
    end.

End Processor.

(** ** A small chess library to run the model on examples

    A board is the list of the moves played so far, a move is its text, and
    [read_game] takes the lines up to and including the first blank line,
    reading every word that is neither a move number nor a result as a
    move.  It stands in for [python-chess] in the examples only. *)
Module Toy.

Definition is_move (tok : string) : bool :=
  negb (Str.endswith "." tok) &&
  negb (bool_decide (tok ∈ ["1-0"; "0-1"; "1/2-1/2"; "*"])).

Fixpoint movetext (s : stream) : list string * nat :=
  match s with
  | [] => ([], 0%nat)
  | line :: rest =>
      if block_end line then ([], 1%nat)
      else let (ms, n) := movetext rest in
           (filter (λ tok, is_move tok = true) (String.words line) ++ ms, S n)
  end.

Definition toy_read_game (s : stream) : option (list string) * nat :=
  match s with
  | [] => (None, 0%nat)
  | _ => let (ms, n) := movetext s in (Some ms, n)
  end.

Definition fen (b : list string) : string :=
  foldl (λ acc m, acc +:+ " " +:+ m) "start" b.

#[global] Instance chess : ChessLib := {|
  Board := list string;
  Move := string;
  initial_board := [];
  board_fen := fen;
  move_uci := λ m, m;
  board_push := λ b m, b ++ [m];
  read_game := toy_read_game;
|}.

Definition NL : string := String Str.LF EmptyString.
Definition Q : string := String Str.DQUOTE EmptyString.

(** The tag line [[key "value"]] with its line feed. *)
Definition tag (key value : string) : string :=
  "[" +:+ key +:+ " " +:+ Q +:+ value +:+ Q +:+ "]" +:+ NL.

(** One game of an archive: its tag block, a blank line, one line of
    movetext, a blank line. *)
Definition game (white black event result moves : string) : stream :=
  [tag "Event" event; tag "WhiteElo" white; tag "BlackElo" black;
   tag "Result" result; NL; moves +:+ NL; NL].

Definition scenario_A : stream :=
  game "2300" "2250" "Rated Classical game" "1-0" "1. e4 e5 2. Nf3 1-0".
Definition scenario_B : stream :=
  game "1800" "2250" "Rated Classical game" "1-0" "1. e4 e5 2. Nf3 1-0".

(** The header set the scanner builds from the tag block of [game]. *)
Definition headers_of (white black event result : string) : headers_t :=
  <["Result" := result]> (<["BlackElo" := black]>
    (<["WhiteElo" := white]> (<["Event" := event]> ∅))).

Definition empty_world : world := World None [] ∅ [] [].

Definition ARCHIVE_URL : string :=
  "https://database.lichess.org/standard/a.pgn.zst".

(** A world in which [a.pgn.zst] is already in the ledger. *)
Definition ledgered_world : world :=
  World (Some ("a.pgn.zst" +:+ NL)) [] ∅ [] [].

(** U+00B2, SUPERSCRIPT TWO. *)
Definition SUPERSCRIPT_TWO : string := String "178" EmptyString.

Definition one_archive (url : string) (content : stream) (u : string) : option stream :=
  if bool_decide (u = url) then Some content else None.

End Toy.

(** * Specification-level definitions *)

(** The identifiers [start + 1, ..., start + k]. *)
Definition ids_from (start : Z) (k : nat) : list Z :=
  map (λ i, start + Z.of_nat i) (seq 1 k).

(** The rows a kept game contributes, as the claim words them: one per
    ply, the position being the board reached by replaying the plies
    before it from [board]. *)
Definition rows_of_game `{ChessLib} (game_id : Z) (result : option string)
    (board : Board) (moves : list Move) : list row :=
  imap (λ i move,
          Row game_id (board_fen (foldl board_push board (take i moves)))
              (move_uci move) result)
       moves.

(** The lines of the header block at the cursor: those that stand before
    the first blank line, or before the end of the stream. *)
Fixpoint header_block (s : stream) : list string :=
  match s with
  | [] => []
  | line :: rest => if block_end line then [] else line :: header_block rest
  end.

(** The bracket-tagged lines among them. *)
Definition tag_lines (s : stream) : list string :=
  filter (λ line, Str.startswith "[" line = true) (header_block s).

(** Every tag line split into key and value; the first line that does not
    split raises. *)
Fixpoint parse_tags (lines : list string) : result (list (string * string)) :=
  match lines with
  | [] => Ok []
  | line :: rest =>
      match tag_line line with
      | Ok kv =>
          match parse_tags rest with
          | Ok kvs => Ok (kv :: kvs)
          | Err e => Err e
          end
      | Err e => Err e
      end
  end.

(** The header set a list of tags builds from [h]; a later tag overrides an
    earlier one with the same key. *)
Definition build_headers (h : headers_t) (kvs : list (string * string)) : headers_t :=
  foldl (λ acc kv, <[kv.1 := kv.2]> acc) h kvs.

(** A ledger text that [mark_file_processed] can extend: empty, or closed
    by a line feed, as every text it has written is. *)
Definition ledger_text_ok (text : string) : Prop :=
  text = EmptyString ∨ ∃ p, text = p +:+ String Str.LF EmptyString.

Definition ledger_ok (file : option string) : Prop :=
  match file with
  | None => True
  | Some text => ledger_text_ok text
  end.

(** A file name as the ledger can hold it: not empty, no white space at
    either end, no line break inside. *)
Definition filename_ok (name : string) : Prop :=
  name ≠ EmptyString ∧ Str.strip name = name ∧
  Str.mem Str.LF name = false ∧ Str.mem Str.CR name = false.

(** [sep.join(parts)]. *)
Fixpoint join (sep : ascii) (parts : list string) : string :=
  match parts with
  | [] => EmptyString
  | [x] => x
  | x :: rest => x +:+ String sep (join sep rest)
  end.

(** The text [mark_file_processed] appends for a list of names. *)
Definition ledger_lines (names : list string) : string :=
  foldr (λ name text, name +:+ String Str.LF text) EmptyString names.

(** The ledger file after the names [names] have been appended to it. *)
Definition append_ledger (names : list string) (file : option string) : option string :=
  match names with
  | [] => file
  | _ => Some (default EmptyString file +:+ ledger_lines names)
  end.

(** A decimal digit, and a string of decimal digits: what [int] reads. *)
Definition decimal_char (c : ascii) : bool :=
  match Ascii.is_nat c with
  | Some _ => true
  | None => false
  end.

Definition decimal (s : string) : bool := Str.all decimal_char s.

(** The order of the output table: by game identifier. *)
Definition row_le (r1 r2 : row) : Prop := row_game_id r1 ≤ row_game_id r2.

(** An option that sets no cap: absent, or zero. *)
Definition uncapped (limit : option Z) : Prop := limit = None ∨ limit = Some 0.

(** A string without line feed: it takes one line of the ledger. *)
Definition single_line (s : string) : Prop := Str.mem Str.LF s = false.

(** The ledger [after] is the ledger [before] followed by the names
    [names], each on a line of its own.  The two ledgers determine the
    list (see [appended_names_unique]). *)
Definition appended_names (before after : option string) (names : list string) : Prop :=
  after = append_ledger names before ∧ Forall single_line names.

(** An outcome that is the failure to find a file. *)
Definition file_not_found {A} (o : outcome A) : bool :=
  match o with
  | Raise FileNotFoundError => true
  | _ => false
  end.

(** A game as an archive holds it: the lines of its tag block and the
    lines of its movetext. *)
Record pgn_game : Type := PgnGame {
  game_tags : list string;
  game_movetext : list string;
}.

Definition BLANK : string := String Str.LF EmptyString.

(** The text of a game: tag block, blank line, movetext, blank line; and
    the text of an archive, its games one after the other. *)
Definition game_lines (g : pgn_game) : stream :=
  game_tags g ++ BLANK :: game_movetext g ++ [BLANK].

Definition archive_lines (gs : list pgn_game) : stream :=
  concat (map game_lines gs).

(** A tag line: not blank, opened by a bracket, with a space between its
    first character and its last two. *)
Definition tag_ok (line : string) : Prop :=
  block_end line = false ∧ Str.startswith "[" line = true ∧
  Str.mem " " (Str.slice 1 (-2) line) = true.

(** A game with at least one tag, all of whose lines are tag lines, and
    with no blank line inside its movetext. *)
Definition game_ok (g : pgn_game) : Prop :=
  game_tags g ≠ [] ∧ Forall tag_ok (game_tags g) ∧
  Forall (λ line, block_end line = false) (game_movetext g).

(** The header set of a game: what the scanner reads off its tag block. *)
Definition game_headers (g : pgn_game) : headers_t :=
  match (read_headers_only (game_tags g)).1 with
  | Ok headers => headers
  | Err _ => ∅
  end.

(** The parser reads the movetext of the game and the blank line that
    closes it, whatever follows. *)
Definition game_parses `{ChessLib} (g : pgn_game) : Prop :=
  ∀ rest, ∃ moves,
    read_game (game_movetext g ++ BLANK :: rest) =
      (Some moves, S (length (game_movetext g))).

(** The filter gives an answer on the game: its Elo fields, if they pass
    [isdigit], are numbers [int] reads. *)
Definition game_filters (min_elo : Z) (g : pgn_game) : Prop :=
  ∃ pass, headers_pass (game_headers g) min_elo = Ok pass.

(** The games the loop of [process_pgn_file] meets in a stream, as the
    claim counts them: a game is met each time the scanner returns a header
    set that is not empty; the next one is looked for after the movetext,
    as the parser (kept game) or the skipper (skipped game) leaves the
    stream.  The list ends with the stream, at the cap, or with the game
    on which the scanner, the filter or the parser raises; the second
    component is that exception. *)
Definition met_cons (headers : headers_t) (stop : bool)
    (rest : list headers_t * option exn) : list headers_t * option exn :=
  if stop then ([headers], None) else (headers :: rest.1, rest.2).

Fixpoint archive_games `{ChessLib} (fuel : nat) (min_elo : Z) (max_games : option Z)
    (game_id : Z) (s : stream) : list headers_t * option exn :=
  match fuel with
  | O => ([], None)
  | S fuel' =>
      match read_headers_only s with
      | (Err e, _) => ([], Some e)
      | (Ok headers, s1) =>
          if bool_decide (headers = ∅) then ([], None)
          else
            match headers_pass headers min_elo with
            | Err e => ([headers], Some e)
            | Ok false =>
                met_cons headers (reached max_games (game_id + 1))
                  (archive_games fuel' min_elo max_games (game_id + 1) (skip_moves s1))
            | Ok true =>
                match read_game s1 with
                | (Some _, n) =>
                    met_cons headers (reached max_games (game_id + 1))
                      (archive_games fuel' min_elo max_games (game_id + 1) (drop n s1))
                | (None, _) => ([headers], Some AttributeError)
                end
            end
      end
  end.

(** The games a run meets: those of the archives it takes up, in the order
    of the index.  [cache] is the [tmp] directory at the start of the run;
    an archive is read from it or, failing that, from the network.  The
    run stops at an archive that cannot be fetched, at one whose processing
    raises, and at either cap. *)
Fixpoint run_games `{ChessLib} (a : args) (net : string → option stream)
    (cache : gmap string stream) (urls : list string)
    (processed_files : gset string) (game_id downloaded : Z) : list headers_t :=
  match urls with
  | [] => []
  | url :: urls' =>
      if reached (downloads a) downloaded then []
      else if bool_decide (url_name url ∈ processed_files)
      then run_games a net cache urls' processed_files game_id downloaded
      else
        match (match cache !! url_name url with
               | Some s => Some s
               | None => net url
               end) with
        | None => []
        | Some s =>
            let met := archive_games (S (length s)) (min_elo a) (max_games a) game_id s in
            let game_id' := game_id + Z.of_nat (length met.1) in
            met.1 ++
              match met.2 with
              | Some _ => []
              | None =>
                  if reached (max_games a) game_id' then []
                  else run_games a net cache urls' (processed_files ∪ {[url_name url]})
                         game_id' (downloaded + 1)
              end
        end
  end.

(** World updates, named. *)
Definition add_rows (rs : list row) (w : world) : world :=
  World (ledger w) (csv w ++ rs) (tmp w) (fetched w) (games w).
Definition add_games (gs : list Z) (w : world) : world :=
  World (ledger w) (csv w) (tmp w) (fetched w) (games w ++ gs).

(** * Properties *)

(* The loops are unfolded one turn at a time; their tests stay folded. *)
Arguments Str.startswith : simpl never.
Arguments block_end : simpl never.
Arguments tag_line : simpl never.

(** ** Strings *)

Lemma append_nil_l (s : string) : EmptyString +:+ s = s.
Proof. reflexivity. Qed.

Lemma append_cons (c : ascii) (a b : string) :
  String c a +:+ b = String c (a +:+ b).
Proof. reflexivity. Qed.

Lemma append_nil_r (s : string) : s +:+ EmptyString = s.
Proof. induction s as [|c s IH]; [done|]. by rewrite append_cons, IH. Qed.

Lemma append_assoc (a b c : string) : (a +:+ b) +:+ c = a +:+ b +:+ c.
Proof. induction a as [|x a IH]; [done|]. by rewrite !append_cons, IH. Qed.

Lemma append_length (a b : string) :
  String.length (a +:+ b) = (String.length a + String.length b)%nat.
Proof. induction a as [|x a IH]; [done|]. rewrite append_cons. simpl. lia. Qed.

Lemma mem_append (c : ascii) (a b : string) :
  Str.mem c (a +:+ b) = Str.mem c a || Str.mem c b.
Proof.
  induction a as [|x a IH]; [done|].
  rewrite append_cons. simpl. rewrite IH. by rewrite orb_assoc.
Qed.

Lemma substring_0_append (a b : string) :
  String.substring 0 (String.length a) (a +:+ b) = a.
Proof.
  induction a as [|x a IH]; [by destruct b|].
  rewrite append_cons. simpl. by rewrite IH.
Qed.

Lemma mem_substring (c : ascii) (s : string) : ∀ n m,
  Str.mem c s = false → Str.mem c (String.substring n m s) = false.
Proof.
  induction s as [|x s IH]; intros n m Hs.
  - by destruct n, m.
  - simpl in Hs. apply orb_false_elim in Hs as [Hx Hs].
    destruct n as [|n]; simpl.
    + destruct m as [|m]; [done|]. simpl. rewrite Hx. by apply IH.
    + by apply IH.
Qed.

Lemma mem_slice (c : ascii) (i j : Z) (s : string) :
  Str.mem c s = false → Str.mem c (Str.slice i j s) = false.
Proof. apply mem_substring. Qed.

(** [line[1:-2]] drops the first character and the last two. *)
Lemma slice_1_m2 (c0 c1 c2 : ascii) (body : string) :
  Str.slice 1 (-2) (String c0 (body +:+ String c1 (String c2 EmptyString))) = body.
Proof.
  unfold Str.slice, Str.clamp. cbn [String.length].
  rewrite append_length. cbn [String.length].
  set (n := String.length body).
  replace (1 <? 0) with false by done. replace (-2 <? 0) with true by done.
  replace (Z.to_nat (Z.min 1 (Z.of_nat (S (n + 2))))) with 1%nat by lia.
  replace (Z.to_nat (Z.max (-2 + Z.of_nat (S (n + 2))) 0
                     - Z.min 1 (Z.of_nat (S (n + 2))))) with n by lia.
  cbn [String.substring]. apply substring_0_append.
Qed.

Lemma split1_no_sep (sep : ascii) (s : string) :
  Str.mem sep s = false → Str.split1 sep s = [s].
Proof.
  induction s as [|x s IH]; [done|]. simpl. intros Hs.
  apply orb_false_elim in Hs as [Hx Hs].
  rewrite Hx, IH by done. reflexivity.
Qed.

(** The split is at the first separator: the key is what stands before
    it, the value all that follows. *)
Lemma split1_first (sep : ascii) (key rest : string) :
  Str.mem sep key = false →
  Str.split1 sep (key +:+ String sep rest) = [key; rest].
Proof.
  induction key as [|x key IH]; intros Hk.
  - rewrite append_nil_l. simpl. by rewrite bool_decide_eq_true_2.
  - simpl in Hk. apply orb_false_elim in Hk as [Hx Hk].
    rewrite append_cons. simpl. rewrite Hx, IH by done. reflexivity.
Qed.

Lemma startswith_bracket (line : string) :
  Str.startswith "[" line = true → ∃ r, line = String "[" r.
Proof.
  destruct line as [|c r]; [done|].
  change (Str.startswith "[" (String c r))
    with (bool_decide ("["%char = c) && true).
  case_bool_decide as Hc; [subst c; eauto|done].
Qed.

Lemma rstrip_all (p : ascii → bool) (s : string) :
  Str.all p s = true → Str.rstrip p s = EmptyString.
Proof.
  induction s as [|c s IH]; [done|]. simpl. intros [Hc Hs]%andb_prop.
  by rewrite IH, Hc.
Qed.

Lemma rstrip_append_all (p : ascii → bool) (a b : string) :
  Str.all p b = true → Str.rstrip p (a +:+ b) = Str.rstrip p a.
Proof.
  intros Hb. induction a as [|c a IH].
  - rewrite append_nil_l. by apply rstrip_all.
  - rewrite append_cons. simpl. by rewrite IH.
Qed.

Lemma rstrip_append_keep (p : ascii → bool) (a b : string) :
  Str.rstrip p b ≠ EmptyString → Str.rstrip p (a +:+ b) = a +:+ Str.rstrip p b.
Proof.
  intros Hb. induction a as [|c a IH]; [done|].
  rewrite !append_cons. simpl. rewrite IH.
  destruct (a +:+ Str.rstrip p b) eqn:E; [|done].
  destruct a; [|done]. by rewrite append_nil_l in E.
Qed.

Lemma lstrip_length (p : ascii → bool) (s : string) :
  Str.lstrip p s = s ∨ (String.length (Str.lstrip p s) < String.length s)%nat.
Proof.
  induction s as [|c s IH]; [by left|]. simpl.
  destruct (p c); [|by left]. right. destruct IH as [->|]; simpl; lia.
Qed.

Lemma rstrip_length (p : ascii → bool) (s : string) :
  (String.length (Str.rstrip p s) ≤ String.length s)%nat.
Proof.
  induction s as [|c s IH]; [done|]. simpl.
  destruct (Str.rstrip p s); [destruct (p c)|]; simpl in *; lia.
Qed.

(** A string that [strip] leaves alone is left alone by either half. *)
Lemma strip_chars_fixed (p : ascii → bool) (s : string) :
  Str.strip_chars p s = s → Str.lstrip p s = s ∧ Str.rstrip p s = s.
Proof.
  unfold Str.strip_chars. intros Hs.
  destruct (lstrip_length p s) as [Hl|Hl].
  - by rewrite Hl in Hs.
  - pose proof (rstrip_length p (Str.lstrip p s)) as Hr.
    rewrite Hs in Hr. lia.
Qed.

Lemma lstrip_fixed_append (p : ascii → bool) (a b : string) :
  a ≠ EmptyString → Str.lstrip p a = a → Str.lstrip p (a +:+ b) = a +:+ b.
Proof.
  destruct a as [|c a]; [done|]. intros _. rewrite append_cons. simpl.
  destruct (p c); [|done]. intros Ha.
  destruct (lstrip_length p a) as [Hl|Hl]; rewrite Ha in Hl.
  - exfalso. apply (f_equal String.length) in Hl. simpl in Hl. lia.
  - simpl in Hl. lia.
Qed.

Lemma lstrip_append_keep (p : ascii → bool) (a : string) (c : ascii) (b : string) :
  p c = false →
  Str.lstrip p (a +:+ String c b) = Str.lstrip p a +:+ String c b.
Proof.
  intros Hc. induction a as [|x a IH].
  - rewrite append_nil_l. simpl. by rewrite Hc.
  - rewrite append_cons. simpl. destruct (p x); [done|]. by rewrite append_cons.
Qed.

Lemma endswith_append (suf s : string) :
  Str.endswith suf s = true ↔ ∃ p, s = p +:+ suf.
Proof.
  induction s as [|c s IH]; simpl.
  - rewrite orb_false_r, bool_decide_eq_true. split.
    + intros <-. by exists EmptyString.
    + intros [[|x p] Hp]; [done|]. by rewrite append_cons in Hp.
  - rewrite orb_true_iff, bool_decide_eq_true, IH. split.
    + intros [<-|[p ->]]; [by exists EmptyString|].
      exists (String c p). by rewrite append_cons.
    + intros [[|x p] Hp]; [by left|]. right.
      rewrite append_cons in Hp. injection Hp as -> ->. by exists p.
Qed.

Lemma strip_chars_cons (p : ascii → bool) (c : ascii) (s : string) :
  p c = true → Str.strip_chars p (String c s) = Str.strip_chars p s.
Proof. intros Hc. unfold Str.strip_chars. simpl. by rewrite Hc. Qed.

Lemma strip_chars_snoc (p : ascii → bool) (c : ascii) (s : string) :
  p c = true →
  Str.strip_chars p (s +:+ String c EmptyString) = Str.strip_chars p s.
Proof.
  intros Hc. unfold Str.strip_chars. induction s as [|x s IH].
  - rewrite append_nil_l. simpl. by rewrite Hc.
  - rewrite append_cons. simpl. destruct (p x); [done|].
    rewrite <- append_cons. apply rstrip_append_all. simpl. by rewrite Hc.
Qed.

(** A tag line gives the key before its first space and, as value, what
    follows that space up to the last two characters of the line, without
    the quotes around it. *)
Lemma tag_line_split (key rest : string) (c1 c2 : ascii) :
  Str.mem " " key = false →
  tag_line (String "[" (key +:+ String " " rest +:+ String c1 (String c2 EmptyString))) =
    Ok (key, Str.strip_char Str.DQUOTE rest).
Proof.
  intros Hkey. unfold tag_line.
  rewrite <- (append_assoc key), slice_1_m2, split1_first by done.
  reflexivity.
Qed.

Lemma tag_line_no_space (line : string) :
  Str.mem " " line = false → tag_line line = Err ValueError.
Proof.
  intros Hline. unfold tag_line.
  rewrite split1_no_sep by (by apply mem_slice). reflexivity.
Qed.

(** ** Index lines and archive names *)

Lemma endswith_nonempty (line : string) :
  Str.endswith PGN_SUFFIX line = true → nonempty line = true.
Proof.
  intros [p ->]%endswith_append. destruct p as [|c p]; [done|].
  by rewrite append_cons.
Qed.

(** A line that ends in the suffix has no white space to lose at its end. *)
Lemma strip_endswith (line : string) :
  Str.endswith PGN_SUFFIX line = true →
  Str.strip line = Str.lstrip Str.is_space line.
Proof.
  intros [p ->]%endswith_append. unfold Str.strip, Str.strip_chars, PGN_SUFFIX.
  rewrite lstrip_append_keep by done.
  by rewrite rstrip_append_keep.
Qed.

Lemma split_nonempty (sep : ascii) (s : string) : Str.split sep s ≠ [].
Proof.
  destruct s as [|c s]; [done|]. simpl.
  destruct (bool_decide (c = sep)); [done|]. by destruct (Str.split sep s).
Qed.

Lemma split_no_sep (sep : ascii) (s : string) :
  Forall (λ part, Str.mem sep part = false) (Str.split sep s).
Proof.
  induction s as [|c s IH]; [by repeat constructor|]. simpl.
  case_bool_decide as Hc; [by constructor|].
  destruct (Str.split sep s) as [|h t]; [by repeat constructor; simpl;
    rewrite bool_decide_eq_false_2|].
  inversion_clear IH as [|? ? Hh Ht]. constructor; [|done].
  simpl. by rewrite bool_decide_eq_false_2, Hh.
Qed.

Lemma join_split (sep : ascii) (s : string) : join sep (Str.split sep s) = s.
Proof.
  induction s as [|c s IH]; [done|]. simpl.
  pose proof (split_nonempty sep s) as Hne.
  case_bool_decide as Hc.
  - subst c. destruct (Str.split sep s) as [|h t]; [done|].
    by rewrite <- IH.
  - destruct (Str.split sep s) as [|h t]; [done|].
    destruct t as [|h' t]; by rewrite <- IH.
Qed.

Lemma join_snoc (sep : ascii) (x : string) (parts : list string) :
  parts ≠ [] → join sep (parts ++ [x]) = join sep parts +:+ String sep x.
Proof.
  induction parts as [|y parts IH]; [done|]. intros _.
  destruct parts as [|z parts]; [done|].
  change (join sep ((y :: z :: parts) ++ [x]))
    with (y +:+ String sep (join sep ((z :: parts) ++ [x]))).
  rewrite IH by done.
  change (join sep (y :: z :: parts)) with (y +:+ String sep (join sep (z :: parts))).
  by rewrite append_assoc, append_cons.
Qed.

(** The name of an archive is the final path segment of its URL. *)
Lemma url_name_spec (url : string) :
  Str.mem "/" (url_name url) = false ∧
  (url = url_name url ∨ ∃ p, url = p +:+ String "/" (url_name url)).
Proof.
  unfold url_name.
  pose proof (split_nonempty "/" url) as Hne.
  pose proof (split_no_sep "/" url) as Hparts.
  pose proof (join_split "/" url) as Hjoin.
  rewrite (app_removelast_last EmptyString Hne) in Hparts, Hjoin.
  apply Forall_app in Hparts as [_ Hlast]. inversion_clear Hlast as [|? ? Hl _].
  split; [done|].
  destruct (removelast (Str.split "/" url)) as [|y parts] eqn:Hinit.
  - left. symmetry. exact Hjoin.
  - right. rewrite join_snoc in Hjoin by done. eexists. symmetry. exact Hjoin.
Qed.

Lemma iter_pgn_urls_filter (lines : list string) :
  iter_pgn_urls lines =
    map (Str.lstrip Str.is_space)
        (filter (λ line, Str.endswith PGN_SUFFIX line = true) lines).
Proof.
  induction lines as [|line lines IH]; [done|].
  simpl. rewrite filter_cons.
  destruct (Str.endswith PGN_SUFFIX line) eqn:Hend.
  - rewrite (endswith_nonempty line Hend), decide_True by done. simpl.
    by rewrite IH, strip_endswith.
  - rewrite andb_false_r, decide_False by done. exact IH.
Qed.

(** ** Ledger *)

Lemma readlines_nonempty (s : string) : s ≠ EmptyString → readlines s ≠ [].
Proof.
  destruct s as [|c s]; [done|]. intros _. simpl.
  destruct (bool_decide (c = Str.LF)); [done|].
  destruct (bool_decide (c = Str.CR)); [done|].
  by destruct (readlines s).
Qed.

Lemma readlines_line (name rest : string) :
  Str.mem Str.LF name = false → Str.mem Str.CR name = false →
  readlines (name +:+ String Str.LF rest) =
    (name +:+ String Str.LF EmptyString) :: readlines rest.
Proof.
  induction name as [|c name IH]; intros Hlf Hcr.
  - reflexivity.
  - simpl in Hlf, Hcr.
    apply orb_false_elim in Hlf as [Hlf Hlf'].
    apply orb_false_elim in Hcr as [Hcr Hcr'].
    rewrite !append_cons. simpl. rewrite Hlf, Hcr, IH by done. reflexivity.
Qed.

Lemma ledger_text_ok_tail (c : ascii) (r : string) :
  ledger_text_ok (String c r) →
  ledger_text_ok r ∧ (r = EmptyString → c = Str.LF).
Proof.
  intros [?|[p Hp]]; [done|]. destruct p as [|x p].
  - rewrite append_nil_l in Hp. injection Hp as -> ->. split; [by left|done].
  - rewrite append_cons in Hp. injection Hp as -> ->. split; [right; eauto|].
    by destruct p.
Qed.

(** Text appended to a ledger that ends a line starts a line of its own. *)
Lemma readlines_append (text more : string) :
  ledger_text_ok text →
  readlines (text +:+ more) = readlines text ++ readlines more.
Proof.
  induction text as [|c r IH]; intros Hok; [done|].
  apply ledger_text_ok_tail in Hok as [Hr Hc].
  specialize (IH Hr). rewrite append_cons. simpl.
  case_bool_decide as Hlf; [by rewrite IH|].
  assert (r ≠ EmptyString) as Hne by (intros ->; by apply Hlf, Hc).
  case_bool_decide as Hcr.
  - destruct r as [|d r0]; [done|]. rewrite append_cons in *.
    case_bool_decide as Hd; [|by rewrite IH].
    subst d. simpl in IH. injection IH as IH. by rewrite IH.
  - rewrite IH. pose proof (readlines_nonempty r Hne).
    by destruct (readlines r).
Qed.

Lemma strip_line (name : string) :
  name ≠ EmptyString → Str.strip name = name →
  Str.strip (name +:+ String Str.LF EmptyString) = name.
Proof.
  intros Hne Hfix. apply strip_chars_fixed in Hfix as [Hl Hr].
  unfold Str.strip, Str.strip_chars.
  rewrite lstrip_fixed_append by done. by rewrite rstrip_append_all.
Qed.

Lemma ledger_lines_app (a b : list string) :
  ledger_lines (a ++ b) = ledger_lines a +:+ ledger_lines b.
Proof.
  induction a as [|x a IH]; [done|]. simpl.
  by rewrite IH, append_assoc, append_cons.
Qed.

Lemma append_ledger_nil (file : option string) : append_ledger [] file = file.
Proof. reflexivity. Qed.

Lemma append_ledger_app (a b : list string) (file : option string) :
  append_ledger b (append_ledger a file) = append_ledger (a ++ b) file.
Proof.
  destruct a as [|x a]; [done|]. destruct b as [|y b].
  - by rewrite app_nil_r.
  - unfold append_ledger. cbn [default app id from_option].
    by rewrite append_assoc, <- ledger_lines_app.
Qed.

(** ** Streams *)

Lemma read_headers_loop_le (h : headers_t) (s : stream) :
  (length (read_headers_loop h s).2 ≤ length s)%nat.
Proof.
  revert h; induction s as [|line rest IH]; intros h; simpl; [lia|].
  destruct (block_end line); simpl; [lia|].
  destruct (Str.startswith "[" line).
  - destruct (tag_line line) as [[key val]|e]; simpl; try lia.
    specialize (IH (<[key:=val]> h)); lia.
  - specialize (IH h); lia.
Qed.

Lemma read_headers_only_lt (s : stream) :
  s ≠ [] → (length (read_headers_only s).2 < length s)%nat.
Proof.
  destruct s as [|line rest]; [done|intros _].
  unfold read_headers_only; simpl.
  destruct (block_end line); simpl; [lia|].
  destruct (Str.startswith "[" line).
  - destruct (tag_line line) as [[key val]|e]; simpl; try lia.
    pose proof (read_headers_loop_le (<[key:=val]> ∅) rest); lia.
  - pose proof (read_headers_loop_le ∅ rest); lia.
Qed.

Lemma skip_moves_le (s : stream) : (length (skip_moves s) ≤ length s)%nat.
Proof.
  induction s as [|line rest IH]; simpl; [lia|].
  destruct (block_end line); simpl; lia.
Qed.

(** ** Header scanner *)

Lemma block_end_bracket (r : string) : block_end (String "[" r) = false.
Proof.
  unfold block_end. apply orb_false_intro; apply bool_decide_eq_false_2; [done|].
  unfold Str.strip, Str.strip_chars. simpl.
  by destruct (Str.rstrip Str.is_space r).
Qed.

Lemma build_headers_nonempty (kvs : list (string * string)) : ∀ h : headers_t,
  h ≠ ∅ → build_headers h kvs ≠ ∅.
Proof.
  induction kvs as [|[k v] kvs IH]; intros h Hh; [done|].
  simpl. apply IH, insert_non_empty.
Qed.

Lemma skip_moves_drop (s : stream) :
  skip_moves s = drop (S (length (header_block s))) s.
Proof.
  induction s as [|line rest IH]; [done|]. simpl.
  destruct (block_end line); [by rewrite drop_0|]. by rewrite IH.
Qed.

(** The loop of the scanner against the description of its result. *)
Lemma read_headers_loop_spec (s : stream) : ∀ h : headers_t,
  read_headers_loop h s =
    match parse_tags (tag_lines s) with
    | Ok kvs => (Ok (build_headers h kvs), skip_moves s)
    | Err e => ((read_headers_loop h s).1, (read_headers_loop h s).2)
    end ∧
  ∀ e, parse_tags (tag_lines s) = Err e → (read_headers_loop h s).1 = Err e.
Proof.
  unfold tag_lines.
  induction s as [|line rest IH]; intros h; [done|].
  simpl. destruct (block_end line) eqn:Hend; [done|].
  rewrite filter_cons. destruct (Str.startswith "[" line) eqn:Hstart.
  - rewrite decide_True by done. simpl.
    destruct (tag_line line) as [[key val]|e]; [|split; [done|by intros ? [= <-]]].
    destruct (IH (<[key:=val]> h)) as [Heq Herr].
    destruct (parse_tags _) as [kvs|e]; [by rewrite Heq|].
    split; [by destruct (read_headers_loop _ rest)|].
    intros e' [= <-]. by apply Herr.
  - rewrite decide_False by (by intros ?). apply IH.
Qed.

(** ** Identifier ranges *)

Lemma ids_from_0 (g : Z) : ids_from g 0 = [].
Proof. reflexivity. Qed.

Lemma ids_from_cons (g : Z) (k : nat) :
  ids_from g (S k) = (g + 1) :: ids_from (g + 1) k.
Proof.
  unfold ids_from. cbn [seq map]. f_equal.
  rewrite <- seq_shift, map_map. apply map_ext; intros i; lia.
Qed.

Lemma ids_from_app (g : Z) (k j : nat) :
  ids_from g k ++ ids_from (g + Z.of_nat k) j = ids_from g (k + j).
Proof.
  revert g; induction k as [|k IH]; intros g.
  - rewrite ids_from_0, Nat.add_0_l. simpl. f_equal; lia.
  - rewrite Nat.add_succ_l, !ids_from_cons. simpl. f_equal.
    rewrite <- IH. do 2 f_equal. lia.
Qed.

(** ** World updates *)

Lemma add_rows_nil (w : world) : add_rows [] w = w.
Proof. destruct w; unfold add_rows; simpl. by rewrite app_nil_r. Qed.

Lemma add_games_nil (w : world) : add_games [] w = w.
Proof. destruct w; unfold add_games; simpl. by rewrite app_nil_r. Qed.

Lemma add_rows_add_rows (a b : list row) (w : world) :
  add_rows b (add_rows a w) = add_rows (a ++ b) w.
Proof. unfold add_rows; simpl. by rewrite app_assoc. Qed.

Lemma add_games_add_games (a b : list Z) (w : world) :
  add_games b (add_games a w) = add_games (a ++ b) w.
Proof. unfold add_games; simpl. by rewrite app_assoc. Qed.

Lemma add_rows_add_games (rs : list row) (gs : list Z) (w : world) :
  add_rows rs (add_games gs w) = add_games gs (add_rows rs w).
Proof. reflexivity. Qed.

Lemma filter_none {A} (P : A → Prop) `{∀ x, Decision (P x)} (l : list A) :
  Forall (λ x, ¬ P x) l → filter P l = [].
Proof.
  induction 1 as [|x l Hx _ IH]; [done|].
  by rewrite filter_cons_False.
Qed.

Section ProcessorFacts.
Context `{ChessLib}.

Lemma rows_of_game_cons game_id result board move moves :
  rows_of_game game_id result board (move :: moves) =
    Row game_id (board_fen board) (move_uci move) result ::
    rows_of_game game_id result (board_push board move) moves.
Proof. reflexivity. Qed.

(** The replay loop writes the rows of the game and nothing else. *)
Lemma write_moves_rows game_id result moves : ∀ board w,
  write_moves game_id result board moves w =
    (Return tt, add_rows (rows_of_game game_id result board moves) w).
Proof.
  induction moves as [|move moves IH]; intros board w.
  - simpl. unfold ret. by rewrite add_rows_nil.
  - simpl write_moves. unfold bind, writerow. rewrite IH.
    rewrite rows_of_game_cons. unfold add_rows; simpl.
    by rewrite <- app_assoc.
Qed.

Lemma rows_of_game_ids game_id result moves : ∀ board,
  Forall (λ r, row_game_id r = game_id)
         (rows_of_game game_id result board moves).
Proof.
  induction moves as [|move moves IH]; intros board; [constructor|].
  rewrite rows_of_game_cons. constructor; [done|apply IH].
Qed.

Lemma keep_game_world game_id headers s w :
  ∃ rs o, keep_game game_id headers s w = (o, add_rows rs w) ∧
          Forall (λ r, row_game_id r = game_id) rs ∧
          o ≠ OutOfFuel ∧
          ∀ s', o = Return s' → (length s' ≤ length s)%nat.
Proof.
  unfold keep_game. destruct (read_game s) as [[moves|] n].
  - unfold bind. rewrite write_moves_rows.
    eexists _, _; split; [reflexivity|].
    split; [apply rows_of_game_ids|]. split; [done|].
    intros s' [= <-]. rewrite length_drop. lia.
  - exists [], (Raise AttributeError). by rewrite add_rows_nil.
Qed.

(** One turn of the loop on a game, that is on a non-empty header set:
    the counter moves by one before the filter runs. *)
Lemma process_games_turn fuel min_elo max_games game_id s w headers s1 :
  read_headers_only s = (Ok headers, s1) →
  headers ≠ ∅ →
  process_games (S fuel) min_elo max_games game_id s w =
    (let! pass := lift (headers_pass headers min_elo) in
     let! s2 := (if pass then keep_game (game_id + 1) headers s1
                 else ret (skip_moves s1)) in
     if reached max_games (game_id + 1) then ret (game_id + 1)
     else process_games fuel min_elo max_games (game_id + 1) s2)
    (add_games [game_id + 1] w).
Proof.
  intros Hscan Hne. simpl process_games. rewrite Hscan.
  unfold bind at 1. unfold lift at 1.
  rewrite bool_decide_eq_false_2 by done. reflexivity.
Qed.

(** A run of the loop changes the output table and the log of
    identifiers only; with fuel above the length of the stream it ends,
    having counted [k] games, and every row it wrote carries one of
    their identifiers. *)
Lemma process_games_world fuel min_elo max_games : ∀ game_id s w,
  (length s < fuel)%nat →
  ∃ rs k o,
    process_games fuel min_elo max_games game_id s w =
      (o, add_games (ids_from game_id k) (add_rows rs w)) ∧
    Forall (λ r, game_id < row_game_id r ≤ game_id + Z.of_nat k) rs ∧
    o ≠ OutOfFuel ∧
    ∀ g, o = Return g → g = game_id + Z.of_nat k.
Proof.
  induction fuel as [|fuel IH]; intros game_id s w Hlen; [lia|].
  destruct (read_headers_only s) as [scanned s1] eqn:Hscan.
  destruct scanned as [headers|e]; cycle 1.
  { simpl process_games. rewrite Hscan.
    exists [], 0%nat, (Raise e).
    by rewrite ids_from_0, add_rows_nil, add_games_nil. }
  destruct (decide (headers = ∅)) as [Hempty|Hempty].
  { simpl process_games. rewrite Hscan. unfold bind at 1. unfold lift at 1.
    rewrite bool_decide_eq_true_2 by done.
    unfold ret. exists [], 0%nat, (Return game_id).
    rewrite ids_from_0, add_rows_nil, add_games_nil.
    split; [done|]. split; [done|]. split; [done|]. intros g [= <-]. lia. }
  rewrite (process_games_turn _ _ _ _ _ _ _ _ Hscan Hempty).
  assert (Hs1 : (length s1 < length s)%nat).
  { destruct s as [|line rest].
    - unfold read_headers_only in Hscan. simpl in Hscan. by simplify_eq.
    - pose proof (read_headers_only_lt (line :: rest)) as Hlt.
      rewrite Hscan in Hlt. by apply Hlt. }
  unfold bind at 1. unfold lift at 1.
  destruct (headers_pass headers min_elo) as [pass|e]; cycle 1.
  { exists [], 1%nat, (Raise e).
    by rewrite ids_from_cons, ids_from_0, add_rows_nil. }
  unfold bind at 1.
  set (step := if pass then keep_game (game_id + 1) headers s1
               else ret (skip_moves s1)).
  assert (Hstep : ∃ rs o, step (add_games [game_id + 1] w) =
             (o, add_rows rs (add_games [game_id + 1] w)) ∧
             Forall (λ r, row_game_id r = game_id + 1) rs ∧
             o ≠ OutOfFuel ∧
             ∀ s', o = Return s' → (length s' ≤ length s1)%nat).
  { subst step. destruct pass.
    - apply keep_game_world.
    - exists [], (Return (skip_moves s1)). rewrite add_rows_nil.
      split; [done|]. split; [done|]. split; [done|].
      intros s' [= <-]. apply skip_moves_le. }
  destruct Hstep as (rs & o & -> & Hids & Hfuel & Hshrink).
  assert (Hrs : ∀ k, Forall (λ r, game_id < row_game_id r
                                  ≤ game_id + Z.of_nat (S k)) rs).
  { intros k. eapply Forall_impl; [exact Hids|]. simpl; intros r ->. lia. }
  destruct o as [s2|e|]; [| |done].
  - destruct (reached max_games (game_id + 1)).
    + unfold ret. exists rs, 1%nat, (Return (game_id + 1)).
      rewrite ids_from_cons, ids_from_0.
      split; [done|]. split; [apply Hrs|]. split; [done|].
      intros g [= <-]. lia.
    + specialize (Hshrink s2 eq_refl).
      destruct (IH (game_id + 1) s2
                  (add_rows rs (add_games [game_id + 1] w)))
        as (rs' & k & o & Hw' & Hids' & Hfuel' & Hg'); [lia|].
      exists (rs ++ rs'), (S k), o. rewrite Hw'. split.
      { rewrite (ids_from_cons game_id). unfold add_games, add_rows; simpl.
        do 2 f_equal; by rewrite <- app_assoc. }
      split.
      { apply Forall_app; split; [apply Hrs|].
        eapply Forall_impl; [exact Hids'|]. simpl; intros r ?. lia. }
      split; [done|]. intros g Hg. rewrite (Hg' g Hg). lia.
  - exists rs, 1%nat, (Raise e). rewrite ids_from_cons, ids_from_0.
    split; [done|]. split; [apply Hrs|]. split; done.
Qed.

Lemma process_pgn_file_world pgn_path min_elo max_games game_id w :
  ∃ rs k o,
    process_pgn_file pgn_path min_elo max_games game_id w =
      (o, add_games (ids_from game_id k) (add_rows rs w)) ∧
    Forall (λ r, game_id < row_game_id r ≤ game_id + Z.of_nat k) rs ∧
    o ≠ OutOfFuel ∧
    ∀ g, o = Return g → g = game_id + Z.of_nat k.
Proof.
  unfold process_pgn_file, bind, open_archive.
  destruct (tmp w !! pgn_path) as [s|].
  - apply process_games_world. lia.
  - exists [], 0%nat, (Raise FileNotFoundError).
    by rewrite ids_from_0, add_rows_nil, add_games_nil.
Qed.

(** The orchestrating loop: the identifiers logged by a run that starts
    with the counter at [game_id]. *)
Lemma main_loop_games a net urls : ∀ processed_files game_id downloaded w,
  ∃ k o w',
    main_loop a net urls processed_files game_id downloaded w = (o, w') ∧
    games w' = games w ++ ids_from game_id k ∧
    o ≠ OutOfFuel ∧
    ∀ g, o = Return g → g = game_id + Z.of_nat k.
Proof.
  induction urls as [|url urls IH]; intros pf game_id downloaded w.
  { exists 0%nat, (Return game_id), w. rewrite ids_from_0, app_nil_r.
    split; [done|]. split; [done|]. split; [done|]. intros g [= <-]. lia. }
  assert (Hstop : ∀ w' e, games w' = games w →
            ∃ k o w'', (@Raise Z e, w') = (o, w'') ∧
              games w'' = games w ++ ids_from game_id k ∧ o ≠ OutOfFuel ∧
              ∀ g, o = Return g → g = game_id + Z.of_nat k).
  { intros w' e Hg. exists 0%nat, (Raise e), w'.
    rewrite ids_from_0, app_nil_r. done. }
  simpl main_loop. destruct (reached (downloads a) downloaded).
  { exists 0%nat, (Return game_id), w. rewrite ids_from_0, app_nil_r.
    split; [done|]. split; [done|]. split; [done|]. intros g [= <-]. lia. }
  case_bool_decide as Hdone; [apply IH|].
  unfold bind at 1.
  destruct (download_file net url w) as [o1 w1] eqn:Hdl.
  assert (Hw1 : games w1 = games w).
  { unfold download_file in Hdl.
    destruct (tmp w !! url_name url); [by simplify_eq|].
    destruct (net url); by simplify_eq. }
  assert (o1 ≠ OutOfFuel) as Ho1.
  { unfold download_file in Hdl.
    destruct (tmp w !! url_name url); [by simplify_eq|].
    destruct (net url); by simplify_eq. }
  destruct o1 as [path|e|]; [|by apply Hstop|done].
  unfold bind at 1.
  destruct (process_pgn_file_world path (min_elo a) (max_games a) game_id w1)
    as (rs & k & o2 & -> & _ & Ho2 & Hg2).
  destruct o2 as [g2|e|]; [| |done]; cycle 1.
  { exists k, (Raise e), (add_games (ids_from game_id k) (add_rows rs w1)).
    simpl. rewrite Hw1. done. }
  specialize (Hg2 g2 eq_refl). subst g2.
  unfold bind at 1, mark_file_processed at 1. unfold bind at 1.
  unfold os_remove at 1. cbn [tmp add_games add_rows].
  destruct (tmp w1 !! path) as [s|].
  - match goal with
    | |- context [if ?c then _ else _] => destruct c
    end.
    + eexists k, _, _. split; [reflexivity|]. simpl. rewrite Hw1.
      split; [done|]. split; [done|]. by intros g [= <-].
    + match goal with
      | |- context [main_loop a net urls ?pf' ?g' ?d' ?w'] =>
          destruct (IH pf' g' d' w') as (k' & o & w'' & -> & Hgs & Ho & Hg)
      end.
      exists (k + k')%nat, o, w''. split; [done|].
      simpl in Hgs. rewrite Hgs, Hw1, <- app_assoc, ids_from_app.
      split; [done|]. split; [done|]. intros g ?. rewrite (Hg g) by done. lia.
  - eexists k, _, _. split; [reflexivity|]. simpl. rewrite Hw1. done.
Qed.

(** The ledger after a run: the names the run appended are names of
    enumerated URLs, in the order of the index. *)
Lemma main_loop_ledger a net urls : ∀ processed_files game_id downloaded w,
  ∃ names o w',
    main_loop a net urls processed_files game_id downloaded w = (o, w') ∧
    names `sublist_of` map url_name urls ∧
    ledger w' = append_ledger names (ledger w).
Proof.
  induction urls as [|url urls IH]; intros pf game_id downloaded w.
  { exists [], (Return game_id), w. split; [done|]. split; [constructor|done]. }
  assert (Hstop : ∀ (o : outcome Z) w', ledger w' = ledger w →
            ∃ names o' w'', (o, w') = (o', w'') ∧
              names `sublist_of` map url_name (url :: urls) ∧
              ledger w'' = append_ledger names (ledger w)).
  { intros o w' Hw'. exists [], o, w'. split; [done|].
    split; [apply sublist_nil_l|done]. }
  simpl main_loop. destruct (reached (downloads a) downloaded).
  { by apply Hstop. }
  case_bool_decide as Hdone.
  { destruct (IH pf game_id downloaded w) as (names & o & w' & -> & Hsub & Hl).
    exists names, o, w'. split; [done|]. split; [by apply sublist_cons|done]. }
  unfold bind at 1.
  destruct (download_file net url w) as [o1 w1] eqn:Hdl.
  assert (Hw1 : ledger w1 = ledger w).
  { unfold download_file in Hdl.
    destruct (tmp w !! url_name url); [by simplify_eq|].
    destruct (net url); by simplify_eq. }
  destruct o1 as [path|e|]; [|by apply Hstop..].
  unfold bind at 1.
  destruct (process_pgn_file_world path (min_elo a) (max_games a) game_id w1)
    as (rs & k & o2 & -> & _ & _ & _).
  destruct o2 as [g2|e|]; [|by apply Hstop..].
  unfold bind at 1, mark_file_processed at 1. unfold bind at 1.
  unfold os_remove at 1. cbn [tmp ledger add_games add_rows].
  assert (Hone : ∀ (o : outcome Z) w',
            ledger w' = Some (default EmptyString (ledger w1) +:+
                              url_name url +:+ String Str.LF EmptyString) →
            ∃ names o' w'', (o, w') = (o', w'') ∧
              names `sublist_of` map url_name (url :: urls) ∧
              ledger w'' = append_ledger names (ledger w)).
  { intros o w' Hw'. exists [url_name url], o, w'. split; [done|].
    split; [apply sublist_skip, sublist_nil_l|]. by rewrite Hw', Hw1. }
  destruct (tmp w1 !! path) as [s|]; [|by apply Hone].
  match goal with
  | |- context [if ?c then _ else _] => destruct c
  end; [by apply Hone|].
  match goal with
  | |- context [main_loop a net urls ?pf' ?g' ?d' ?w'] =>
      destruct (IH pf' g' d' w') as (names & o & w'' & -> & Hsub & Hl)
  end.
  exists (url_name url :: names), o, w''. split; [done|].
  split; [by apply sublist_skip|].
  rewrite Hl. cbn [ledger]. rewrite Hw1.
  apply (append_ledger_app [url_name url] names).
Qed.

End ProcessorFacts.

(** * The claims *)

(** C4: a turn of the loop on a game whose headers fail the filter writes
    no row and still consumes an identifier: the loop goes on (or stops at
    [max_games]) from the stream [skip_moves] leaves, with the counter one
    higher and the output table as it was; when the call is over no row
    with this game's identifier has been added, and the identifier is the
    first one logged. *)
Theorem rejected_game_no_rows `{ChessLib}
    fuel min_elo max_games game_id s w headers s1 :
  read_headers_only s = (Ok headers, s1) →
  headers ≠ ∅ →
  headers_pass headers min_elo = Ok false →
  (length s ≤ fuel)%nat →
  process_games (S fuel) min_elo max_games game_id s w =
    (if reached max_games (game_id + 1) then ret (game_id + 1)
     else process_games fuel min_elo max_games (game_id + 1) (skip_moves s1))
      (add_games [game_id + 1] w) ∧
  filter (λ r, row_game_id r = game_id + 1)
         (csv (process_games (S fuel) min_elo max_games game_id s w).2) =
    filter (λ r, row_game_id r = game_id + 1) (csv w) ∧
  games (process_games (S fuel) min_elo max_games game_id s w).2
    !! length (games w) = Some (game_id + 1).
Proof.
  intros Hscan Hne Hpass Hfuel.
  assert (Hturn : process_games (S fuel) min_elo max_games game_id s w =
    (if reached max_games (game_id + 1) then ret (game_id + 1)
     else process_games fuel min_elo max_games (game_id + 1) (skip_moves s1))
      (add_games [game_id + 1] w)).
  { rewrite (process_games_turn _ _ _ _ _ _ _ _ Hscan Hne), Hpass.
    reflexivity. }
  split; [exact Hturn|]. rewrite Hturn.
  destruct (reached max_games (game_id + 1)).
  { unfold ret; simpl. split; [done|].
    rewrite lookup_app_r, Nat.sub_diag by lia. done. }
  assert (Hs1 : (length s1 < length s)%nat).
  { destruct s as [|line rest].
    - unfold read_headers_only in Hscan. simpl in Hscan. by simplify_eq.
    - pose proof (read_headers_only_lt (line :: rest)) as Hlt.
      rewrite Hscan in Hlt. by apply Hlt. }
  pose proof (skip_moves_le s1) as Hskip.
  destruct (process_games_world fuel min_elo max_games (game_id + 1)
              (skip_moves s1) (add_games [game_id + 1] w))
    as (rs & k & o & -> & Hids & _); [lia|].
  simpl. split.
  - rewrite filter_app, (filter_none _ rs), app_nil_r; [done|].
    eapply Forall_impl; [exact Hids|]. simpl; intros r ?. lia.
  - rewrite <- app_assoc, lookup_app_r, Nat.sub_diag by lia. done.
Qed.

(** C5: a turn of the loop on a kept game with mainline [moves] appends
    exactly [length moves] rows, in move order; row [i] carries the game's
    identifier, the FEN of the board reached from the initial position by
    the first [i] moves, the UCI text of move [i] and the value of the
    [Result] header. *)
Theorem kept_game_rows `{ChessLib}
    fuel min_elo max_games game_id s w headers s1 moves n :
  read_headers_only s = (Ok headers, s1) →
  headers ≠ ∅ →
  headers_pass headers min_elo = Ok true →
  read_game s1 = (Some moves, n) →
  let rows := rows_of_game (game_id + 1) (headers !! "Result") initial_board moves in
  process_games (S fuel) min_elo max_games game_id s w =
    (if reached max_games (game_id + 1) then ret (game_id + 1)
     else process_games fuel min_elo max_games (game_id + 1) (drop n s1))
      (add_rows rows (add_games [game_id + 1] w)) ∧
  length rows = length moves ∧
  ∀ i move, moves !! i = Some move →
    rows !! i =
      Some (Row (game_id + 1)
                (board_fen (foldl board_push initial_board (take i moves)))
                (move_uci move) (headers !! "Result")).
Proof.
  intros Hscan Hne Hpass Hgame rows. split; [|split].
  - rewrite (process_games_turn _ _ _ _ _ _ _ _ Hscan Hne), Hpass.
    unfold bind at 1. unfold lift at 1. unfold bind at 1.
    unfold keep_game. rewrite Hgame. unfold bind at 1.
    rewrite write_moves_rows. reflexivity.
  - subst rows. unfold rows_of_game. by rewrite length_imap.
  - intros i move Hi. subst rows. unfold rows_of_game.
    rewrite list_lookup_imap, Hi. reflexivity.
Qed.

(** C6: when the name of every enumerated archive is already in the
    ledger, a run downloads nothing, processes nothing and changes neither
    the output table nor the ledger: it returns zero games and leaves the
    world as it found it. *)
Theorem rerun_fully_ledgered `{ChessLib} a lines net w :
  Forall (λ url, url_name url ∈ load_processed_files (ledger w))
         (iter_pgn_urls lines) →
  main a (Some lines) net w = (Return 0, w).
Proof.
  intros Hall. unfold main.
  generalize 0 at 2 as downloaded.
  induction Hall as [|url urls Hurl Hall IH]; intros downloaded; simpl.
  - reflexivity.
  - destruct (reached (downloads a) downloaded); [reflexivity|].
    rewrite bool_decide_eq_true_2 by done. apply IH.
Qed.

(** C8: started at the cursor [s], the header scanner consumes the lines
    of the header block and the blank line that ends it, and returns the
    header set built from the bracket-tagged lines of the block (it raises
    when one of them does not split).  A tag line splits at its first
    space: the key is what stands between the bracket and that space, the
    value is the rest of the line less its last two characters, with the
    quotes around it removed.  The result is empty exactly when no
    bracket-tagged line stands before the end of the block, as it is at
    the end of the stream. *)
Theorem read_headers_only_spec :
  (∀ s,
     (read_headers_only s).1 =
       match parse_tags (tag_lines s) with
       | Ok kvs => Ok (build_headers ∅ kvs)
       | Err e => Err e
       end ∧
     ∀ h, (read_headers_only s).1 = Ok h →
          (read_headers_only s).2 = drop (S (length (header_block s))) s ∧
          (h = ∅ ↔ tag_lines s = [])) ∧
  (∀ key rest c1 c2,
     Str.mem " " key = false →
     tag_line (String "[" (key +:+ String " " rest +:+ String c1 (String c2 EmptyString))) =
       Ok (key, Str.strip_char Str.DQUOTE rest)) ∧
  (∀ key value,
     Str.mem " " key = false →
     tag_line (String "[" (key +:+ String " " (String Str.DQUOTE
                 (value +:+ String Str.DQUOTE EmptyString))
                   +:+ String "]" (String Str.LF EmptyString))) =
       Ok (key, Str.strip_char Str.DQUOTE value)) ∧
  read_headers_only [] = (Ok ∅, []).
Proof.
  split; [|split; [|split]].
  - intros s. unfold read_headers_only.
    destruct (read_headers_loop_spec s ∅) as [Heq Herr].
    destruct (parse_tags (tag_lines s)) as [kvs|e] eqn:Hparse.
    + rewrite Heq. simpl. split; [done|]. intros h [= <-].
      split; [apply skip_moves_drop|].
      destruct kvs as [|[k v] kvs].
      * split; [intros _|done].
        destruct (tag_lines s) as [|line lines]; [done|]. simpl in Hparse.
        destruct (tag_line line); [|done]. by destruct (parse_tags lines).
      * split.
        -- intros Hemp. exfalso. revert Hemp. simpl.
           apply build_headers_nonempty, insert_non_empty.
        -- intros Hnil. by rewrite Hnil in Hparse.
    + rewrite (Herr e eq_refl). split; [done|]. by intros h.
  - apply tag_line_split.
  - intros key value Hkey. rewrite tag_line_split by done.
    unfold Str.strip_char.
    rewrite strip_chars_cons, strip_chars_snoc; by rewrite ?bool_decide_eq_true_2.
  - reflexivity.
Qed.

(** C10: the header scanner raises on a line that opens with a bracket and
    holds no space: the split of [line[1:-2]] gives one part and the
    unpacking into key and value fails with [ValueError]. *)
Theorem tag_line_without_space_raises (line : string) (rest : stream) :
  Str.startswith "[" line = true →
  Str.mem " " line = false →
  read_headers_only (line :: rest) = (Err ValueError, rest).
Proof.
  intros Hstart Hspace. unfold read_headers_only. simpl.
  destruct (startswith_bracket line Hstart) as [r ->].
  rewrite block_end_bracket, Hstart, tag_line_no_space by done.
  reflexivity.
Qed.

Lemma tag_line_without_space_raises_witness :
  read_headers_only ["[Key]"] = (Err ValueError, []).
Proof.
  apply (tag_line_without_space_raises "[Key]" []); reflexivity.
Defined.

(** C7: the ledger round-trips.  For a ledger that is absent, empty or
    closed by a line feed, and a file name that is not empty, carries no
    white space at either end and holds no line break, the set loaded
    after [mark_file_processed] is the set loaded before together with the
    name; the ledger written is again closed by a line feed. *)
Theorem ledger_roundtrip (name : string) (w : world) :
  ledger_ok (ledger w) →
  filename_ok name →
  load_processed_files (ledger (mark_file_processed name w).2) =
    load_processed_files (ledger w) ∪ {[name]} ∧
  ledger_ok (ledger (mark_file_processed name w).2).
Proof.
  intros Hledger (Hne & Hstrip & Hlf & Hcr). simpl. split.
  - assert (Hload : ∀ text, ledger_text_ok text →
        load_processed_files (Some (text +:+ name +:+ String Str.LF EmptyString)) =
        load_processed_files (Some text) ∪ {[name]}).
    { intros text Htext. unfold load_processed_files.
      rewrite readlines_append by done.
      rewrite (readlines_line name EmptyString) by done. cbn [readlines].
      rewrite map_app, filter_app, list_to_set_app_L. f_equal.
      cbn [map]. rewrite strip_line by done.
      rewrite filter_cons_True by (by destruct name).
      rewrite filter_nil. simpl. by rewrite (right_id_L ∅ (∪)). }
    destruct (ledger w) as [text|]; [by apply Hload|].
    apply (Hload EmptyString). by left.
  - right. exists (default EmptyString (ledger w) +:+ name).
    by rewrite append_assoc.
Qed.

Lemma ledger_roundtrip_witness :
  load_processed_files
    (ledger (mark_file_processed "b.pgn.zst"
               (World (Some ("a.pgn.zst" +:+ Toy.NL)) [] ∅ [] [])).2) =
    load_processed_files (Some ("a.pgn.zst" +:+ Toy.NL)) ∪ {["b.pgn.zst"]} ∧
  ledger_ok
    (ledger (mark_file_processed "b.pgn.zst"
               (World (Some ("a.pgn.zst" +:+ Toy.NL)) [] ∅ [] [])).2).
Proof.
  apply (ledger_roundtrip "b.pgn.zst"
           (World (Some ("a.pgn.zst" +:+ Toy.NL)) [] ∅ [] [])).
  - right. exists "a.pgn.zst". reflexivity.
  - repeat split; [discriminate | reflexivity..].
Defined.

(** C7, inputs on which the round trip fails as the claim words it.  A
    name that starts with a space comes back without it, so the set loaded
    after the call does not contain the name.  A name appended to a ledger
    whose last line is not closed by a line feed merges with that line, so
    the set loaded after the call contains neither the name nor the name
    the ledger held before. *)
Lemma ledger_roundtrip_counterexample :
  load_processed_files
    (ledger (mark_file_processed " a.pgn.zst" Toy.empty_world).2) =
    {["a.pgn.zst"]} ∧
  bool_decide
    (" a.pgn.zst" ∈
     load_processed_files
       (ledger (mark_file_processed " a.pgn.zst" Toy.empty_world).2)) = false ∧
  bool_decide ("a.pgn.zst" ∈ load_processed_files (Some "a.pgn.zst")) = true ∧
  load_processed_files
    (ledger (mark_file_processed "b.pgn.zst"
               (World (Some "a.pgn.zst") [] ∅ [] [])).2) =
    {["a.pgn.zstb.pgn.zst"]} ∧
  bool_decide
    ("a.pgn.zst" ∈
     load_processed_files
       (ledger (mark_file_processed "b.pgn.zst"
                  (World (Some "a.pgn.zst") [] ∅ [] [])).2)) = false ∧
  bool_decide
    ("b.pgn.zst" ∈
     load_processed_files
       (ledger (mark_file_processed "b.pgn.zst"
                  (World (Some "a.pgn.zst") [] ∅ [] [])).2)) = false.
Proof.
  repeat split; vm_compute; reflexivity.
Qed.

(** C9: the archive enumerator yields, in the order of the index, one URL
    for each index line that ends in [.pgn.zst] and for no other line: the
    line without its leading white space, which is the line itself for an
    index whose lines carry none.  The name of an archive is the final path
    segment of its URL: it holds no slash and the URL is the name itself or
    ends in a slash followed by the name.  [download_file] caches the
    archive under this name, and the names a run appends to the ledger are
    names of enumerated URLs, in the order of the index. *)
Theorem iter_pgn_urls_spec `{ChessLib} :
  (∀ lines,
     iter_pgn_urls lines =
       map (Str.lstrip Str.is_space)
           (filter (λ line, Str.endswith PGN_SUFFIX line = true) lines) ∧
     (Forall (λ line, Str.lstrip Str.is_space line = line) lines →
      iter_pgn_urls lines =
        filter (λ line, Str.endswith PGN_SUFFIX line = true) lines)) ∧
  (∀ url,
     Str.mem "/" (url_name url) = false ∧
     (url = url_name url ∨ ∃ p, url = p +:+ String "/" (url_name url))) ∧
  (∀ net url w name,
     (download_file net url w).1 = Return name →
     name = url_name url ∧ is_Some (tmp (download_file net url w).2 !! name)) ∧
  (∀ a lines net w,
     ∃ names,
       names `sublist_of` map url_name (iter_pgn_urls lines) ∧
       ledger (main a (Some lines) net w).2 = append_ledger names (ledger w)).
Proof.
  split; [|split; [exact url_name_spec|split]].
  - intros lines. split; [apply iter_pgn_urls_filter|].
    intros Hclean. rewrite iter_pgn_urls_filter.
    induction Hclean as [|line lines Hline _ IH]; [done|].
    rewrite filter_cons. case_decide; [|exact IH].
    cbn [map]. by rewrite Hline, IH.
  - intros net url w name. unfold download_file.
    destruct (tmp w !! url_name url) as [s|] eqn:Hcached.
    + simpl. intros [= <-]. by rewrite Hcached.
    + destruct (net url); simpl; [|done]. intros [= <-].
      by rewrite lookup_insert_eq.
  - intros a lines net w. unfold main.
    destruct (main_loop_ledger a net (iter_pgn_urls lines)
                (load_processed_files (ledger w)) 0 0 w)
      as (names & o & w' & -> & Hsub & Hl).
    by exists names.
Qed.

Lemma iter_pgn_urls_spec_witness :
  iter_pgn_urls [Toy.ARCHIVE_URL; "index.html"] =
    filter (λ line, Str.endswith PGN_SUFFIX line = true)
           [Toy.ARCHIVE_URL; "index.html"] ∧
  Str.mem "/" (url_name Toy.ARCHIVE_URL) = false.
Proof.
  destruct (iter_pgn_urls_spec (H := Toy.chess)) as (Hlines & Hname & _).
  split.
  - apply (proj2 (Hlines [Toy.ARCHIVE_URL; "index.html"])).
    repeat constructor.
  - apply (proj1 (Hname Toy.ARCHIVE_URL)).
Defined.

Lemma rejected_game_no_rows_witness :
  process_games 8 2200 None 0 Toy.scenario_B Toy.empty_world =
    (if reached None (0 + 1) then ret (0 + 1)
     else process_games 7 2200 None (0 + 1)
            (skip_moves ["1. e4 e5 2. Nf3 1-0" +:+ Toy.NL; Toy.NL]))
      (add_games [0 + 1] Toy.empty_world) ∧
  filter (λ r, row_game_id r = 0 + 1)
         (csv (process_games 8 2200 None 0 Toy.scenario_B Toy.empty_world).2) =
    filter (λ r, row_game_id r = 0 + 1) (csv Toy.empty_world) ∧
  games (process_games 8 2200 None 0 Toy.scenario_B Toy.empty_world).2
    !! length (games Toy.empty_world) = Some (0 + 1).
Proof.
  apply (rejected_game_no_rows (H := Toy.chess) 7 2200 None 0 Toy.scenario_B
           Toy.empty_world
           (Toy.headers_of "1800" "2250" "Rated Classical game" "1-0")
           ["1. e4 e5 2. Nf3 1-0" +:+ Toy.NL; Toy.NL]).
  - vm_compute. reflexivity.
  - apply insert_non_empty.
  - vm_compute. reflexivity.
  - simpl. lia.
Defined.

Lemma kept_game_rows_witness :
  let rows := rows_of_game (0 + 1) (Some "1-0") initial_board ["e4"; "e5"; "Nf3"] in
  process_games 8 2200 None 0 Toy.scenario_A Toy.empty_world =
    (if reached None (0 + 1) then ret (0 + 1)
     else process_games 7 2200 None (0 + 1)
            (drop 2 ["1. e4 e5 2. Nf3 1-0" +:+ Toy.NL; Toy.NL]))
      (add_rows rows (add_games [0 + 1] Toy.empty_world)) ∧
  length rows = 3%nat ∧
  ∀ i move, ["e4"; "e5"; "Nf3"] !! i = Some move →
    rows !! i =
      Some (Row (0 + 1)
                (board_fen (foldl board_push initial_board
                              (take i ["e4"; "e5"; "Nf3"])))
                (move_uci move) (Some "1-0")).
Proof.
  apply (kept_game_rows (H := Toy.chess) 7 2200 None 0 Toy.scenario_A
           Toy.empty_world
           (Toy.headers_of "2300" "2250" "Rated Classical game" "1-0")
           ["1. e4 e5 2. Nf3 1-0" +:+ Toy.NL; Toy.NL]
           ["e4"; "e5"; "Nf3"] 2).
  - vm_compute. reflexivity.
  - apply insert_non_empty.
  - vm_compute. reflexivity.
  - vm_compute. reflexivity.
Defined.

Lemma rerun_fully_ledgered_witness :
  main (Args 2200 None None) (Some [Toy.ARCHIVE_URL])
       (Toy.one_archive Toy.ARCHIVE_URL Toy.scenario_A) Toy.ledgered_world =
    (Return 0, Toy.ledgered_world).
Proof.
  apply (rerun_fully_ledgered (H := Toy.chess)).
  assert (Hurls : iter_pgn_urls [Toy.ARCHIVE_URL] = [Toy.ARCHIVE_URL])
    by (vm_compute; reflexivity).
  rewrite Hurls. constructor; [|constructor].
  apply (bool_decide_unpack _). vm_compute. exact I.
Defined.

Lemma read_headers_only_spec_witness :
  tag_line (Toy.tag "WhiteElo" "2300") = Ok ("WhiteElo", "2300") ∧
  (read_headers_only Toy.scenario_A).2 =
    drop (S (length (header_block Toy.scenario_A))) Toy.scenario_A.
Proof.
  destruct read_headers_only_spec as (Hscan & _ & Htag & _). split.
  - apply (Htag "WhiteElo" "2300"). reflexivity.
  - apply (proj2 (Hscan Toy.scenario_A)
             (Toy.headers_of "2300" "2250" "Rated Classical game" "1-0")).
    vm_compute. reflexivity.
Defined.

(** C1, at the input where it fails: with [--max-games 1] and an archive
    of two games, [process_pgn_file] returns after the first game and
    [main] goes on to ledger the archive and to remove its local file.  The
    second game is never read: a run without the cap counts two games, and
    a second capped run finds the archive in the ledger and skips it. *)
Theorem max_games_stop_ledgers_archive :
  main (Args 2200 (Some 1) None) (Some [Toy.ARCHIVE_URL])
       (Toy.one_archive Toy.ARCHIVE_URL (Toy.scenario_A ++ Toy.scenario_A))
       Toy.empty_world =
    (Return 1,
     World (Some ("a.pgn.zst" +:+ Toy.NL))
           (rows_of_game 1 (Some "1-0") initial_board ["e4"; "e5"; "Nf3"])
           ∅ [Toy.ARCHIVE_URL] [1]) ∧
  (main (Args 2200 None None) (Some [Toy.ARCHIVE_URL])
        (Toy.one_archive Toy.ARCHIVE_URL (Toy.scenario_A ++ Toy.scenario_A))
        Toy.empty_world).1 = Return 2 ∧
  (main (Args 2200 (Some 1) None) (Some [Toy.ARCHIVE_URL])
        (Toy.one_archive Toy.ARCHIVE_URL (Toy.scenario_A ++ Toy.scenario_A))
        (World (Some ("a.pgn.zst" +:+ Toy.NL)) [] ∅ [] [])).1 = Return 0.
Proof. repeat split; vm_compute; reflexivity. Qed.

(** C3: what the filter does.  It returns true exactly when both Elo
    fields are present, pass [isdigit], convert with [int] to numbers not
    below [min_elo], and the event is the fixed literal; a missing Elo
    field, or one that fails [isdigit], makes it return false.  But
    [str.isdigit] accepts the superscript two and [int] does not: on such a
    field the filter raises [ValueError] where the claim has it return
    false. *)
Theorem headers_pass_superscript_raises :
  (Str.isdigit Toy.SUPERSCRIPT_TWO = true ∧
   Str.int Toy.SUPERSCRIPT_TWO = Err ValueError ∧
   headers_pass
     (Toy.headers_of Toy.SUPERSCRIPT_TWO "2300" "Rated Classical game" "1-0")
     2200 = Err ValueError) ∧
  (∀ headers min_elo,
     headers_pass headers min_elo = Ok true ↔
     ∃ w b wi bi,
       headers !! "WhiteElo" = Some w ∧ headers !! "BlackElo" = Some b ∧
       Str.isdigit w = true ∧ Str.isdigit b = true ∧
       Str.int w = Ok wi ∧ Str.int b = Ok bi ∧
       min_elo ≤ wi ∧ min_elo ≤ bi ∧
       headers !! "Event" = Some RATED_CLASSICAL) ∧
  (∀ headers min_elo,
     Str.isdigit (default EmptyString (headers !! "WhiteElo")) = false ∨
     Str.isdigit (default EmptyString (headers !! "BlackElo")) = false →
     headers_pass headers min_elo = Ok false).
Proof.
  split; [repeat split; vm_compute; reflexivity|]. split.
  - intros headers min_elo. unfold headers_pass, and_then, ge_int. split.
    + destruct (headers !! "WhiteElo") as [[|c w]|]; try done.
      destruct (headers !! "BlackElo") as [[|d b]|]; try done.
      cbn [truthy default from_option id].
      destruct (Str.isdigit (String c w)) eqn:Hw; [|done].
      destruct (Str.isdigit (String d b)) eqn:Hb; [|done].
      destruct (Str.int (String c w)) as [wi|] eqn:Hwi; [|done].
      destruct (min_elo <=? wi) eqn:Hmw; [|done].
      destruct (Str.int (String d b)) as [bi|] eqn:Hbi; [|done].
      destruct (min_elo <=? bi) eqn:Hmb; [|done].
      intros [= He%bool_decide_eq_true].
      exists (String c w), (String d b), wi, bi. repeat split; try done; lia.
    + intros (w & b & wi & bi & -> & -> & Hw & Hb & Hwi & Hbi & Hmw & Hmb & ->).
      destruct w as [|c w]; [done|]. destruct b as [|d b]; [done|].
      cbn [truthy default from_option id]. rewrite Hw, Hb, Hwi, Hbi.
      rewrite (proj2 (Z.leb_le _ _) Hmw), (proj2 (Z.leb_le _ _) Hmb).
      by rewrite bool_decide_eq_true_2.
  - intros headers min_elo Hbad. unfold headers_pass, and_then, ge_int.
    destruct (headers !! "WhiteElo") as [[|c w]|]; try done.
    destruct (headers !! "BlackElo") as [[|d b]|]; try done.
    cbn [truthy default from_option id] in *.
    destruct (Str.isdigit (String c w)); [|done].
    destruct (Str.isdigit (String d b)); [|done].
    by destruct Hbad.
Qed.

(** * Further properties of the code *)

(** ** Movetext skipper and header scanner *)

(** X1: [skip_moves] consumes the lines up to and including the first
    blank line and nothing after it; without a blank line it consumes the
    whole stream. *)
Theorem skip_moves_consumes (s : stream) :
  (∃ block blank,
     s = block ++ blank :: skip_moves s ∧
     Forall (λ line, block_end line = false) block ∧
     block_end blank = true) ∨
  (skip_moves s = [] ∧ Forall (λ line, block_end line = false) s).
Proof.
  induction s as [|line rest IH]; [right; by split|]. simpl.
  destruct (block_end line) eqn:Hend.
  - left. exists [], line. by split.
  - destruct IH as [(block & blank & Hs & Hblock & Hblank)|[Hs Hall]].
    + left. exists (line :: block), blank. split; [by rewrite Hs at 1|].
      split; [by constructor|done].
    + right. split; [done|by constructor].
Qed.

(** X2: when the header scanner returns, it leaves the cursor where the
    movetext skipper would have left it from the same position: both stop
    just after the first blank line. *)
Theorem scanner_skipper_same_cursor (s : stream) (headers : headers_t) :
  (read_headers_only s).1 = Ok headers →
  (read_headers_only s).2 = skip_moves s.
Proof.
  unfold read_headers_only. intros Hok.
  destruct (read_headers_loop_spec s ∅) as [Heq Herr].
  destruct (parse_tags (tag_lines s)) as [kvs|e].
  - by rewrite Heq.
  - rewrite (Herr e eq_refl) in Hok. done.
Qed.

Lemma scanner_skipper_same_cursor_witness :
  (read_headers_only Toy.scenario_A).2 = skip_moves Toy.scenario_A.
Proof.
  apply (scanner_skipper_same_cursor Toy.scenario_A
           (Toy.headers_of "2300" "2250" "Rated Classical game" "1-0")).
  vm_compute. reflexivity.
Defined.

Lemma build_headers_list_to_map (kvs : list (string * string)) : ∀ h : headers_t,
  build_headers h kvs = list_to_map (reverse kvs) ∪ h.
Proof.
  induction kvs as [|[k v] kvs IH]; intros h.
  - simpl. by rewrite (left_id_L ∅ (∪)).
  - simpl. rewrite IH, reverse_cons, list_to_map_app. simpl.
    rewrite <- (assoc_L (∪)). f_equal.
    rewrite insert_empty. by rewrite <- insert_union_singleton_l.
Qed.

(** X3: a tag that occurs more than once in a header block keeps its last
    value: the header set maps each key to the value of the last tag line
    with this key. *)
Theorem read_headers_only_last_wins (s : stream) (kvs : list (string * string)) :
  parse_tags (tag_lines s) = Ok kvs →
  (read_headers_only s).1 = Ok (list_to_map (reverse kvs)).
Proof.
  intros Hparse. unfold read_headers_only.
  destruct (read_headers_loop_spec s ∅) as [Heq _].
  rewrite Hparse in Heq. rewrite Heq. simpl.
  by rewrite build_headers_list_to_map, (right_id_L ∅ (∪)).
Qed.

Lemma read_headers_only_last_wins_witness :
  (read_headers_only [Toy.tag "Event" "a"; Toy.tag "Event" "b"]).1 =
    Ok (list_to_map (reverse [("Event", "a"); ("Event", "b")])).
Proof.
  apply (read_headers_only_last_wins
           [Toy.tag "Event" "a"; Toy.tag "Event" "b"]
           [("Event", "a"); ("Event", "b")]).
  vm_compute. reflexivity.
Defined.

(** ** Filter predicate *)

(** X4: the filter is monotone in the threshold: a game kept at
    [min_elo] is kept at every lower threshold. *)
Theorem headers_pass_monotone (headers : headers_t) (min_elo lower : Z) :
  headers_pass headers min_elo = Ok true →
  lower ≤ min_elo →
  headers_pass headers lower = Ok true.
Proof.
  unfold headers_pass, and_then, ge_int. intros Hpass Hle.
  destruct (headers !! "WhiteElo") as [[|c w]|]; try done.
  destruct (headers !! "BlackElo") as [[|d b]|]; try done.
  cbn [truthy default from_option id] in *.
  destruct (Str.isdigit (String c w)); [|done].
  destruct (Str.isdigit (String d b)); [|done].
  destruct (Str.int (String c w)) as [wi|]; [|done].
  destruct (min_elo <=? wi) eqn:Hw; [|done].
  destruct (Str.int (String d b)) as [bi|]; [|done].
  destruct (min_elo <=? bi) eqn:Hb; [|done].
  apply Z.leb_le in Hw, Hb.
  rewrite (proj2 (Z.leb_le lower wi)), (proj2 (Z.leb_le lower bi)) by lia.
  done.
Qed.

Lemma headers_pass_monotone_witness :
  headers_pass (Toy.headers_of "2300" "2250" "Rated Classical game" "1-0") 2000
    = Ok true.
Proof.
  apply (headers_pass_monotone _ 2200 2000); [vm_compute; reflexivity|lia].
Defined.

Lemma int_unsigned_err (s : string) (e : exn) :
  Str.int_unsigned s = Err e → e = ValueError.
Proof.
  unfold Str.int_unsigned. destruct (Str.int_digits 0 false s); [|congruence].
  destruct (_ <? _)%nat; congruence.
Qed.

Lemma int_err (s : string) (e : exn) : Str.int s = Err e → e = ValueError.
Proof.
  unfold Str.int. destruct (Str.strip_chars Str.is_int_space s) as [|c r].
  - apply int_unsigned_err.
  - destruct c as [[] [] [] [] [] [] [] []];
      try apply int_unsigned_err;
      destruct (Str.int_unsigned r) eqn:Hr; intros [= <-];
      by apply (int_unsigned_err r).
Qed.

Lemma decimal_char_not_space (c : ascii) :
  decimal_char c = true → Str.is_int_space c = false.
Proof. by destruct c as [[] [] [] [] [] [] [] []]. Qed.

Lemma lstrip_none (p : ascii → bool) (s : string) :
  Str.all (λ c, negb (p c)) s = true → Str.lstrip p s = s.
Proof. destruct s as [|c s]; [done|]. simpl. by destruct (p c). Qed.

Lemma rstrip_none (p : ascii → bool) (s : string) :
  Str.all (λ c, negb (p c)) s = true → Str.rstrip p s = s.
Proof.
  induction s as [|c s IH]; [done|]. simpl. intros [Hc Hs]%andb_prop.
  rewrite IH by done. destruct s; [|done]. by destruct (p c).
Qed.

Lemma decimal_no_space (s : string) :
  decimal s = true → Str.all (λ c, negb (Str.is_int_space c)) s = true.
Proof.
  induction s as [|c s IH]; [done|]. simpl. intros [Hc Hs]%andb_prop.
  by rewrite (decimal_char_not_space c Hc), IH.
Qed.

Lemma int_digits_decimal (s : string) : ∀ acc after_digit,
  decimal s = true → s ≠ EmptyString ∨ after_digit = true →
  ∃ v, Str.int_digits acc after_digit s = Some v.
Proof.
  induction s as [|c s IH]; intros acc after_digit Hs Hne.
  - destruct Hne as [?| ->]; [done|]. by eexists.
  - simpl in *. apply andb_prop in Hs as [Hc Hs]. unfold decimal_char in Hc.
    destruct (Ascii.is_nat c) as [d|]; [|done]. apply IH; [done|by right].
Qed.

Lemma count_digits_decimal (s : string) :
  decimal s = true → Str.count_digits s = String.length s.
Proof.
  induction s as [|c s IH]; [done|]. simpl. intros [Hc Hs]%andb_prop.
  unfold decimal_char in Hc. destruct (Ascii.is_nat c); [|done]. by rewrite IH.
Qed.

(** [int] reads every non-empty string of at most 4300 decimal digits. *)
Lemma int_decimal (s : string) :
  s ≠ EmptyString → decimal s = true →
  (String.length s ≤ Str.int_max_str_digits)%nat →
  ∃ v, Str.int s = Ok v.
Proof.
  intros Hne Hdec Hlen. unfold Str.int, Str.strip_chars.
  rewrite lstrip_none, rstrip_none by by apply decimal_no_space.
  assert (Hu : ∃ v, Str.int_unsigned s = Ok v).
  { unfold Str.int_unsigned.
    destruct (int_digits_decimal s 0 false Hdec) as [v ->]; [by left|].
    rewrite count_digits_decimal by done.
    rewrite (proj2 (Nat.ltb_ge _ _)) by done. by eexists. }
  destruct s as [|c r]; [done|]. simpl in Hdec.
  apply andb_prop in Hdec as [Hc _].
  by destruct c as [[] [] [] [] [] [] [] []].
Qed.

(** X5: the filter raises only [ValueError], and only on an Elo field
    that passes [isdigit] and yet is no string of decimal digits, or is
    longer than the 4300 digits [int] accepts. *)
Theorem headers_pass_raises_only (headers : headers_t) (min_elo : Z) (e : exn) :
  headers_pass headers min_elo = Err e →
  e = ValueError ∧
  ∃ v, (headers !! "WhiteElo" = Some v ∨ headers !! "BlackElo" = Some v) ∧
       Str.isdigit v = true ∧
       (decimal v = false ∨ (Str.int_max_str_digits < String.length v)%nat).
Proof.
  assert (Hbad : ∀ v e', Str.int v = Err e' → v ≠ EmptyString →
            decimal v = false ∨ (Str.int_max_str_digits < String.length v)%nat).
  { intros v e' Hv Hne. destruct (decimal v) eqn:Hdec; [|by left]. right.
    destruct (decide (String.length v ≤ Str.int_max_str_digits)%nat) as [Hlen|]; [|lia].
    destruct (int_decimal v Hne Hdec Hlen) as [n Hn]. congruence. }
  unfold headers_pass, and_then, ge_int.
  destruct (headers !! "WhiteElo") as [[|c w]|]; try done.
  destruct (headers !! "BlackElo") as [[|d b]|]; try done.
  cbn [truthy default from_option id].
  destruct (Str.isdigit (String c w)) eqn:Hw; [|done].
  destruct (Str.isdigit (String d b)) eqn:Hb; [|done].
  destruct (Str.int (String c w)) as [wi|ew] eqn:Hwi.
  - destruct (min_elo <=? wi); [|done].
    destruct (Str.int (String d b)) as [bi|eb] eqn:Hbi;
      [by destruct (min_elo <=? bi)|].
    intros [= <-]. split; [by apply (int_err _ _ Hbi)|].
    exists (String d b). split; [by right|]. split; [done|].
    by apply (Hbad _ _ Hbi).
  - intros [= <-]. split; [by apply (int_err _ _ Hwi)|].
    exists (String c w). split; [by left|]. split; [done|].
    by apply (Hbad _ _ Hwi).
Qed.

Lemma headers_pass_raises_only_witness :
  ValueError = ValueError ∧
  ∃ v, (Toy.headers_of Toy.SUPERSCRIPT_TWO "2300" "Rated Classical game" "1-0"
          !! "WhiteElo" = Some v ∨
        Toy.headers_of Toy.SUPERSCRIPT_TWO "2300" "Rated Classical game" "1-0"
          !! "BlackElo" = Some v) ∧
       Str.isdigit v = true ∧
       (decimal v = false ∨ (Str.int_max_str_digits < String.length v)%nat).
Proof.
  apply (headers_pass_raises_only
           (Toy.headers_of Toy.SUPERSCRIPT_TWO "2300" "Rated Classical game" "1-0")
           2200 ValueError).
  vm_compute. reflexivity.
Defined.

(** ** Stream processor and download *)

(** X6: an archive whose first block holds no tag line counts as drained
    at once: an empty archive, or one that opens with a blank line or with
    text that is no tag, is processed to no game, no row and an unchanged
    counter, whatever follows the block. *)
Theorem process_pgn_file_no_tags `{ChessLib}
    (pgn_path : string) (min_elo : Z) (max_games : option Z)
    (start_game_id : Z) (w : world) (s : stream) :
  tmp w !! pgn_path = Some s →
  tag_lines s = [] →
  process_pgn_file pgn_path min_elo max_games start_game_id w =
    (Return start_game_id, w).
Proof.
  intros Hfile Htags. unfold process_pgn_file, bind, open_archive.
  rewrite Hfile. simpl process_games.
  destruct (read_headers_loop_spec s ∅) as [Heq _].
  rewrite Htags in Heq. simpl in Heq.
  unfold read_headers_only. rewrite Heq. reflexivity.
Qed.

Lemma process_pgn_file_no_tags_witness :
  process_pgn_file "a.pgn.zst" 2200 None 0
    (World None [] {["a.pgn.zst" := Toy.NL :: Toy.scenario_A]} [] []) =
    (Return 0, World None [] {["a.pgn.zst" := Toy.NL :: Toy.scenario_A]} [] []).
Proof.
  apply (process_pgn_file_no_tags (H := Toy.chess) "a.pgn.zst" 2200 None 0
           (World None [] {["a.pgn.zst" := Toy.NL :: Toy.scenario_A]} [] [])
           (Toy.NL :: Toy.scenario_A)).
  - apply lookup_singleton_eq.
  - reflexivity.
Defined.

(** X7: a download that succeeded is not repeated: a second call for the
    same URL finds the cached file, requests nothing from the network and
    leaves ledger, output table and cache as they are. *)
Theorem download_file_cached (net net' : string → option stream)
    (url name : string) (w : world) :
  (download_file net url w).1 = Return name →
  download_file net' url (download_file net url w).2 =
    (Return name, (download_file net url w).2).
Proof.
  unfold download_file. intros Hok.
  destruct (tmp w !! url_name url) as [s|] eqn:Hcached.
  - simpl in *. rewrite Hcached. by simplify_eq.
  - destruct (net url) as [content|]; [|done]. simpl in *.
    rewrite lookup_insert_eq. by simplify_eq.
Qed.

Lemma download_file_cached_witness :
  download_file (λ _, None) Toy.ARCHIVE_URL
    (download_file (Toy.one_archive Toy.ARCHIVE_URL Toy.scenario_A)
       Toy.ARCHIVE_URL Toy.empty_world).2 =
  (Return "a.pgn.zst",
   (download_file (Toy.one_archive Toy.ARCHIVE_URL Toy.scenario_A)
      Toy.ARCHIVE_URL Toy.empty_world).2).
Proof.
  apply (download_file_cached (Toy.one_archive Toy.ARCHIVE_URL Toy.scenario_A)
           (λ _, None) Toy.ARCHIVE_URL "a.pgn.zst" Toy.empty_world).
  vm_compute. reflexivity.
Defined.

(** ** Completion ledger *)

Lemma ledger_text_ok_append (text name : string) :
  ledger_text_ok (text +:+ name +:+ String Str.LF EmptyString).
Proof. right. exists (text +:+ name). by rewrite append_assoc. Qed.

Lemma load_append_name (text name : string) :
  ledger_text_ok text → filename_ok name →
  load_processed_files (Some (text +:+ name +:+ String Str.LF EmptyString)) =
    load_processed_files (Some text) ∪ {[name]}.
Proof.
  intros Htext (Hne & Hstrip & Hlf & Hcr). unfold load_processed_files.
  rewrite readlines_append by done.
  rewrite (readlines_line name EmptyString) by done. cbn [readlines].
  rewrite map_app, filter_app, list_to_set_app_L. f_equal.
  cbn [map]. rewrite strip_line by done.
  rewrite filter_cons_True by (by destruct name).
  rewrite filter_nil. simpl. by rewrite (right_id_L ∅ (∪)).
Qed.

Lemma load_append_lines (names : list string) : ∀ text,
  ledger_text_ok text → Forall filename_ok names →
  load_processed_files (Some (text +:+ ledger_lines names)) =
    load_processed_files (Some text) ∪ list_to_set names.
Proof.
  induction names as [|name names IH]; intros text Htext Hnames.
  - simpl. by rewrite append_nil_r, (right_id_L ∅ (∪)).
  - inversion_clear Hnames as [|? ? Hname Hrest].
    change (ledger_lines (name :: names))
      with (name +:+ String Str.LF (EmptyString +:+ ledger_lines names)).
    rewrite <- (append_cons Str.LF EmptyString), <- !append_assoc.
    rewrite (append_assoc text), IH, load_append_name by
      (done || apply ledger_text_ok_append).
    rewrite list_to_set_cons. by rewrite (assoc_L (∪)).
Qed.

Lemma mark_all_ledger (names : list string) : ∀ w,
  ledger (foldl (λ w' name, (mark_file_processed name w').2) w names) =
    append_ledger names (ledger w).
Proof.
  induction names as [|name names IH]; intros w; [done|].
  simpl foldl. rewrite IH. simpl ledger.
  apply (append_ledger_app [name] names).
Qed.

(** X8: the ledger is reconstructed by replay.  After
    [mark_file_processed] has been called for a list of clean file names,
    one after the other, loading the ledger gives the names loaded before
    together with all the names marked. *)
Theorem ledger_replay (names : list string) (w : world) :
  ledger_ok (ledger w) →
  Forall filename_ok names →
  load_processed_files
    (ledger (foldl (λ w' name, (mark_file_processed name w').2) w names)) =
    load_processed_files (ledger w) ∪ list_to_set names.
Proof.
  intros Hfile Hnames. rewrite mark_all_ledger.
  destruct names as [|name names].
  - simpl. by rewrite (right_id_L ∅ (∪)).
  - unfold append_ledger. destruct (ledger w) as [text|].
    + by apply load_append_lines.
    + apply (load_append_lines (name :: names) EmptyString); [by left|done].
Qed.

Lemma ledger_replay_witness :
  load_processed_files
    (ledger (foldl (λ w' name, (mark_file_processed name w').2)
               Toy.empty_world ["a.pgn.zst"; "b.pgn.zst"])) =
    load_processed_files (ledger Toy.empty_world) ∪
      list_to_set ["a.pgn.zst"; "b.pgn.zst"].
Proof.
  apply (ledger_replay ["a.pgn.zst"; "b.pgn.zst"] Toy.empty_world); [exact I|].
  repeat constructor; discriminate.
Defined.

Lemma rstrip_idem (p : ascii → bool) (s : string) :
  Str.rstrip p (Str.rstrip p s) = Str.rstrip p s.
Proof.
  induction s as [|c s IH]; [done|]. simpl.
  destruct (Str.rstrip p s) as [|d r] eqn:Hr.
  - destruct (p c) eqn:Hc; [done|]. simpl. by rewrite Hc.
  - simpl. simpl in IH. by rewrite IH.
Qed.

Lemma lstrip_rstrip_lstrip (p : ascii → bool) (s : string) :
  Str.lstrip p (Str.rstrip p (Str.lstrip p s)) = Str.rstrip p (Str.lstrip p s).
Proof.
  induction s as [|c s IH]; [done|]. simpl.
  destruct (p c) eqn:Hc; [done|]. simpl.
  destruct (Str.rstrip p s); rewrite ?Hc; simpl; by rewrite Hc.
Qed.

Lemma strip_chars_idem (p : ascii → bool) (s : string) :
  Str.strip_chars p (Str.strip_chars p s) = Str.strip_chars p s.
Proof.
  unfold Str.strip_chars. by rewrite lstrip_rstrip_lstrip, rstrip_idem.
Qed.

Lemma mem_lstrip (c : ascii) (p : ascii → bool) (s : string) :
  Str.mem c s = false → Str.mem c (Str.lstrip p s) = false.
Proof.
  induction s as [|d s IH]; [done|]. simpl. intros [Hd Hs]%orb_false_elim.
  destruct (p d); [by apply IH|]. simpl. by rewrite Hd, Hs.
Qed.

Lemma mem_rstrip (c : ascii) (p : ascii → bool) (s : string) :
  Str.mem c s = false → Str.mem c (Str.rstrip p s) = false.
Proof.
  induction s as [|d s IH]; [done|]. simpl. intros [Hd Hs]%orb_false_elim.
  specialize (IH Hs). destruct (Str.rstrip p s).
  - destruct (p d); [done|]. simpl. by rewrite Hd.
  - simpl in *. by rewrite Hd, IH.
Qed.

(** Every line the file iterator hands over is a text without line break,
    followed by a line feed or, at the end of the file, by nothing. *)
Lemma readlines_shape (s : string) :
  let shaped line :=
    ∃ body, (line = body ∨ line = body +:+ String Str.LF EmptyString) ∧
            Str.mem Str.LF body = false ∧ Str.mem Str.CR body = false in
  Forall shaped (readlines s) ∧
  ∀ d r, s = String d r → Forall shaped (readlines r).
Proof.
  intros shaped.
  assert (Hnl : shaped (String Str.LF EmptyString)).
  { exists EmptyString. split; [by right|done]. }
  induction s as [|c s [IH IH']]; [split; [constructor|done]|].
  split; [|by intros d r [= _ <-]]. simpl.
  case_bool_decide as Hlf; [by constructor|].
  case_bool_decide as Hcr.
  { constructor; [done|]. destruct s as [|d r']; [constructor|].
    case_bool_decide; [by eapply IH'|done]. }
  destruct (readlines s) as [|l t]; [|inversion_clear IH as [|? ? Hl Ht]].
  - repeat constructor. exists (String c EmptyString). split; [by left|].
    simpl. by rewrite !bool_decide_eq_false_2.
  - constructor; [|done]. destruct Hl as (body & Hl & Hblf & Hbcr).
    exists (String c body). split.
    + destruct Hl as [-> | ->]; [by left|by right].
    + simpl. by rewrite Hblf, Hbcr, !bool_decide_eq_false_2.
Qed.

(** X9: whatever the text of the ledger, every name [load_processed_files]
    returns is clean: not empty, without white space at either end and
    without line break.  Blank lines and white space around a name never
    reach the set. *)
Theorem load_processed_files_clean (file : option string) (name : string) :
  name ∈ load_processed_files file → filename_ok name.
Proof.
  destruct file as [text|]; [|by intros ?%not_elem_of_empty].
  unfold load_processed_files.
  rewrite elem_of_list_to_set, list_elem_of_filter, list_elem_of_fmap.
  intros [Hne (line & -> & Hline)].
  destruct (readlines_shape text) as [Hshape _].
  rewrite Forall_forall in Hshape.
  destruct (Hshape line Hline) as (body & Hbody & Hlf & Hcr).
  assert (Hstrip : Str.strip line = Str.strip body).
  { destruct Hbody as [-> | ->]; [done|]. by apply strip_chars_snoc. }
  rewrite Hstrip in *. split; [by intros Hemp; rewrite Hemp in Hne|].
  split; [apply strip_chars_idem|].
  unfold Str.strip, Str.strip_chars. split; by apply mem_rstrip, mem_lstrip.
Qed.

Lemma load_processed_files_clean_witness : filename_ok "a.pgn.zst".
Proof.
  apply (load_processed_files_clean
           (Some ("  a.pgn.zst " +:+ String Str.CR Toy.NL +:+ Toy.NL))).
  apply (bool_decide_unpack _). vm_compute. exact I.
Defined.

(** ** Archive names *)

Lemma split_one (sep : ascii) (s : string) :
  Str.mem sep s = false → Str.split sep s = [s].
Proof.
  induction s as [|c s IH]; [done|]. simpl. intros [Hc Hs]%orb_false_elim.
  by rewrite Hc, IH.
Qed.

(** Text without separator appended to a string extends its last part. *)
Lemma split_append (sep : ascii) (a b : string) :
  Str.mem sep b = false →
  Str.split sep (a +:+ b) =
    removelast (Str.split sep a) ++ [List.last (Str.split sep a) EmptyString +:+ b].
Proof.
  intros Hb. induction a as [|c a IH].
  - rewrite append_nil_l. by apply split_one.
  - rewrite append_cons. simpl Str.split. rewrite IH.
    pose proof (split_nonempty sep a) as Hne.
    destruct (Str.split sep a) as [|h t]; [done|].
    case_bool_decide; [done|]. by destruct t.
Qed.

Lemma url_name_append (p suffix : string) :
  Str.mem "/" suffix = false →
  url_name (p +:+ suffix) = url_name p +:+ suffix.
Proof.
  intros Hs. unfold url_name. rewrite split_append by done. apply last_last.
Qed.

(** X10: every URL the enumerator yields ends in [.pgn.zst], and so does
    the name of its archive, which therefore is never empty: the name the
    archive is cached under and ledgered with always carries the suffix. *)
Theorem iter_pgn_urls_names (lines : list string) :
  Forall (λ url,
            Str.endswith PGN_SUFFIX url = true ∧
            Str.endswith PGN_SUFFIX (url_name url) = true ∧
            url_name url ≠ EmptyString)
         (iter_pgn_urls lines).
Proof.
  rewrite iter_pgn_urls_filter.
  induction lines as [|line lines IH]; [constructor|].
  rewrite filter_cons. case_decide as Hend; [|exact IH].
  constructor; [|exact IH].
  apply endswith_append in Hend as [p ->]. unfold PGN_SUFFIX.
  rewrite lstrip_append_keep by done.
  split; [apply endswith_append; eauto|].
  rewrite url_name_append by done.
  split; [apply endswith_append; eauto|].
  by destruct (url_name (Str.lstrip Str.is_space p)).
Qed.

(** ** Runs of the stream processor and of the main loop *)

Lemma tag_line_err (line : string) (e : exn) :
  tag_line line = Err e → e = ValueError.
Proof.
  unfold tag_line, unpack2.
  destruct (Str.split1 " " (Str.slice 1 (-2) line)) as [|k [|v [|? ?]]];
    congruence.
Qed.

Lemma read_headers_loop_err (s : stream) : ∀ (h : headers_t) (e : exn),
  (read_headers_loop h s).1 = Err e → e = ValueError.
Proof.
  induction s as [|line rest IH]; intros h e; [done|]. simpl.
  destruct (block_end line); [done|].
  destruct (Str.startswith "[" line); [|apply IH].
  destruct (tag_line line) as [[key val]|e'] eqn:Htag; [apply IH|].
  simpl. intros [= <-]. by apply (tag_line_err line).
Qed.

Lemma headers_pass_err (headers : headers_t) (min_elo : Z) (e : exn) :
  headers_pass headers min_elo = Err e → e = ValueError.
Proof.
  unfold headers_pass, and_then, ge_int.
  set (w := default EmptyString (headers !! "WhiteElo")).
  set (b := default EmptyString (headers !! "BlackElo")).
  destruct (truthy _); [|done]. destruct (truthy _); [|done].
  destruct (Str.isdigit w); [|done]. destruct (Str.isdigit b); [|done].
  destruct (Str.int w) as [wi|ew] eqn:Hwi;
    [|intros [= <-]; by apply (int_err _ _ Hwi)].
  destruct (min_elo <=? wi); [|done].
  destruct (Str.int b) as [bi|eb] eqn:Hbi;
    [by destruct (min_elo <=? bi)|intros [= <-]; by apply (int_err _ _ Hbi)].
Qed.

Lemma reached_false_lt (m n : Z) :
  0 < m → reached (Some m) n = false → n < m.
Proof.
  unfold reached. intros Hm Hr. apply andb_false_iff in Hr as [Hr|Hr].
  - apply negb_false_iff, Z.eqb_eq in Hr. lia.
  - apply Z.leb_gt in Hr. lia.
Qed.

Lemma constant_rows_sorted (c : Z) (rs : list row) :
  Forall (λ r, row_game_id r = c) rs → StronglySorted row_le rs.
Proof.
  induction 1 as [|r rs Hr Hrs IH]; constructor; [done|].
  eapply Forall_impl; [exact Hrs|]. unfold row_le. simpl. intros r' ->. lia.
Qed.

Section RunFacts.
Context `{ChessLib}.

Lemma keep_game_outcome game_id headers s w :
  ∃ rs o, keep_game game_id headers s w = (o, add_rows rs w) ∧
          Forall (λ r, row_game_id r = game_id) rs ∧
          ((∃ s', o = Return s' ∧ (length s' ≤ length s)%nat) ∨
           o = Raise AttributeError).
Proof.
  unfold keep_game. destruct (read_game s) as [[moves|] n].
  - unfold bind. rewrite write_moves_rows.
    eexists _, _; split; [reflexivity|]. split; [apply rows_of_game_ids|].
    left. eexists; split; [reflexivity|]. rewrite length_drop. lia.
  - exists [], (Raise AttributeError). rewrite add_rows_nil.
    split; [done|]. split; [constructor|by right].
Qed.

(** What a run of the loop does, in one statement: it appends rows and
    logs identifiers and touches nothing else; the rows carry the
    identifiers of the games met, in increasing order; it returns the
    counter or raises [ValueError] or [AttributeError]; under a cap of
    [m] games it does not count past [m]. *)
Lemma process_games_run fuel min_elo max_games : ∀ game_id s w,
  (length s < fuel)%nat →
  ∃ rs k o,
    process_games fuel min_elo max_games game_id s w =
      (o, add_games (ids_from game_id k) (add_rows rs w)) ∧
    Forall (λ r, game_id < row_game_id r ≤ game_id + Z.of_nat k) rs ∧
    StronglySorted row_le rs ∧
    (o = Return (game_id + Z.of_nat k) ∨ o = Raise ValueError ∨
     o = Raise AttributeError) ∧
    ∀ m, max_games = Some m → 0 < m → game_id < m →
         game_id + Z.of_nat k ≤ m.
Proof.
  induction fuel as [|fuel IH]; intros game_id s w Hlen; [lia|].
  destruct (read_headers_only s) as [scanned s1] eqn:Hscan.
  destruct scanned as [headers|e]; cycle 1.
  { simpl process_games. rewrite Hscan.
    exists [], 0%nat, (Raise e).
    rewrite ids_from_0, add_rows_nil, add_games_nil.
    split; [done|]. split; [done|]. split; [constructor|].
    split; [|intros; lia]. right; left. f_equal.
    apply (read_headers_loop_err s ∅). unfold read_headers_only in Hscan.
    by rewrite Hscan. }
  destruct (decide (headers = ∅)) as [Hempty|Hempty].
  { simpl process_games. rewrite Hscan. unfold bind at 1. unfold lift at 1.
    rewrite bool_decide_eq_true_2 by done.
    unfold ret. exists [], 0%nat, (Return game_id).
    rewrite ids_from_0, add_rows_nil, add_games_nil.
    split; [done|]. split; [done|]. split; [constructor|].
    split; [left; f_equal; lia|intros; lia]. }
  rewrite (process_games_turn _ _ _ _ _ _ _ _ Hscan Hempty).
  assert (Hs1 : (length s1 < length s)%nat).
  { destruct s as [|line rest].
    - unfold read_headers_only in Hscan. simpl in Hscan. by simplify_eq.
    - pose proof (read_headers_only_lt (line :: rest)) as Hlt.
      rewrite Hscan in Hlt. by apply Hlt. }
  unfold bind at 1. unfold lift at 1.
  destruct (headers_pass headers min_elo) as [pass|e] eqn:Hpass; cycle 1.
  { exists [], 1%nat, (Raise e).
    rewrite ids_from_cons, ids_from_0, add_rows_nil.
    split; [done|]. split; [done|]. split; [constructor|].
    split; [|intros; lia]. right; left. f_equal.
    by apply (headers_pass_err _ _ _ Hpass). }
  unfold bind at 1.
  set (step := if pass then keep_game (game_id + 1) headers s1
               else ret (skip_moves s1)).
  assert (Hstep : ∃ rs o, step (add_games [game_id + 1] w) =
             (o, add_rows rs (add_games [game_id + 1] w)) ∧
             Forall (λ r, row_game_id r = game_id + 1) rs ∧
             ((∃ s', o = Return s' ∧ (length s' ≤ length s1)%nat) ∨
              o = Raise AttributeError)).
  { subst step. destruct pass.
    - apply keep_game_outcome.
    - exists [], (Return (skip_moves s1)). rewrite add_rows_nil.
      split; [done|]. split; [done|]. left. eexists. split; [done|].
      apply skip_moves_le. }
  destruct Hstep as (rs & o & -> & Hids & Ho).
  assert (Hrs : ∀ k, Forall (λ r, game_id < row_game_id r
                                  ≤ game_id + Z.of_nat (S k)) rs).
  { intros k. eapply Forall_impl; [exact Hids|]. simpl; intros r ->. lia. }
  pose proof (constant_rows_sorted _ _ Hids) as Hsorted.
  destruct Ho as [(s2 & -> & Hshrink)| ->]; cycle 1.
  { exists rs, 1%nat, (Raise AttributeError). rewrite ids_from_cons, ids_from_0.
    split; [done|]. split; [apply Hrs|]. split; [done|].
    split; [by right; right|intros; lia]. }
  destruct (reached max_games (game_id + 1)) eqn:Hreached.
  - unfold ret. exists rs, 1%nat, (Return (game_id + 1)).
    rewrite ids_from_cons, ids_from_0.
    split; [done|]. split; [apply Hrs|]. split; [done|].
    split; [left; f_equal; lia|intros; lia].
  - destruct (IH (game_id + 1) s2
                (add_rows rs (add_games [game_id + 1] w)))
      as (rs' & k & o & Hw' & Hids' & Hsorted' & Ho' & Hcap'); [lia|].
    exists (rs ++ rs'), (S k), o. rewrite Hw'. split.
    { rewrite (ids_from_cons game_id). unfold add_games, add_rows; simpl.
      do 2 f_equal; by rewrite <- app_assoc. }
    split.
    { apply Forall_app; split; [apply Hrs|].
      eapply Forall_impl; [exact Hids'|]. simpl; intros r ?. lia. }
    split.
    { apply StronglySorted_app_2; [|done..].
      intros r1 r2 Hr1 Hr2. unfold row_le.
      rewrite Forall_forall in Hids, Hids'.
      rewrite (Hids r1 Hr1). specialize (Hids' r2 Hr2). simpl in Hids'. lia. }
    split.
    { replace (game_id + Z.of_nat (S k)) with (game_id + 1 + Z.of_nat k) by lia.
      exact Ho'. }
    intros m Hm Hpos Hlt. subst max_games.
    pose proof (reached_false_lt m (game_id + 1) Hpos Hreached).
    specialize (Hcap' m eq_refl Hpos). lia.
Qed.

Lemma process_pgn_file_run pgn_path min_elo max_games game_id w s :
  tmp w !! pgn_path = Some s →
  ∃ rs k o,
    process_pgn_file pgn_path min_elo max_games game_id w =
      (o, add_games (ids_from game_id k) (add_rows rs w)) ∧
    Forall (λ r, game_id < row_game_id r ≤ game_id + Z.of_nat k) rs ∧
    StronglySorted row_le rs ∧
    (o = Return (game_id + Z.of_nat k) ∨ o = Raise ValueError ∨
     o = Raise AttributeError) ∧
    ∀ m, max_games = Some m → 0 < m → game_id < m →
         game_id + Z.of_nat k ≤ m.
Proof.
  intros Hfile. unfold process_pgn_file, bind, open_archive. rewrite Hfile.
  apply process_games_run. lia.
Qed.

End RunFacts.

Section MainLoopRule.
Context `{ChessLib}.

(** A proof rule for the main loop.  [I] holds of the state at the head of
    every turn (the URLs still to come, the in-memory set, the counter, the
    number of downloads and the world), [Q] of the outcome.  One turn on
    an archive that is not in the set finds the file in the cache or
    fetches it, appends rows [rs] for [k] games, and then either raises
    with the file kept and the ledger as it was, or ledgers the name and
    removes the file, after which the loop stops if the cap on games is
    reached. *)
Lemma main_loop_rule (a : args) (net : string → option stream)
    (I : list string → gset string → Z → Z → world → Prop)
    (Q : outcome Z → world → Prop) :
  (∀ urls pf g d w, I urls pf g d w →
     urls = [] ∨ reached (downloads a) d = true →
     Q (Return g) w) →
  (∀ url urls pf g d w, I (url :: urls) pf g d w →
     reached (downloads a) d = false → url_name url ∈ pf →
     I urls pf g d w) →
  (∀ url urls pf g d w, I (url :: urls) pf g d w →
     reached (downloads a) d = false → url_name url ∉ pf →
     tmp w !! url_name url = None → net url = None →
     Q (Raise HTTPError)
       (World (ledger w) (csv w) (tmp w) (fetched w ++ [url]) (games w))) →
  (∀ url urls pf g d w fs s rs k, I (url :: urls) pf g d w →
     reached (downloads a) d = false → url_name url ∉ pf →
     (tmp w !! url_name url = Some s ∧ fs = [] ∨
      tmp w !! url_name url = None ∧ net url = Some s ∧ fs = [url]) →
     Forall (λ r, g < row_game_id r ≤ g + Z.of_nat k) rs →
     StronglySorted row_le rs →
     (∀ m, max_games a = Some m → 0 < m → g < m → g + Z.of_nat k ≤ m) →
     (∀ e, e = ValueError ∨ e = AttributeError →
        Q (Raise e)
          (World (ledger w) (csv w ++ rs) (<[url_name url := s]> (tmp w))
                 (fetched w ++ fs) (games w ++ ids_from g k))) ∧
     let w' :=
       World (Some (default EmptyString (ledger w) +:+ url_name url +:+
                    String Str.LF EmptyString))
             (csv w ++ rs) (delete (url_name url) (tmp w))
             (fetched w ++ fs) (games w ++ ids_from g k) in
     if reached (max_games a) (g + Z.of_nat k)
     then Q (Return (g + Z.of_nat k)) w'
     else I urls (pf ∪ {[url_name url]}) (g + Z.of_nat k) (d + 1) w') →
  ∀ urls pf g d w, I urls pf g d w →
    ∃ o w', main_loop a net urls pf g d w = (o, w') ∧ Q o w'.
Proof.
  intros Hexit Hskip Hfail Harchive.
  induction urls as [|url urls IH]; intros pf g d w HI.
  { exists (Return g), w. split; [done|]. apply (Hexit [] pf g d w HI). by left. }
  simpl main_loop. destruct (reached (downloads a) d) eqn:Hdl.
  { exists (Return g), w. split; [done|]. apply (Hexit _ pf g d w HI). by right. }
  case_bool_decide as Hdone.
  { apply IH. by apply (Hskip url). }
  assert (Hgo : ∀ fs s w1,
            (tmp w !! url_name url = Some s ∧ fs = [] ∨
             tmp w !! url_name url = None ∧ net url = Some s ∧ fs = [url]) →
            w1 = World (ledger w) (csv w) (<[url_name url := s]> (tmp w))
                       (fetched w ++ fs) (games w) →
            ∃ o w',
              (let! game_id := process_pgn_file (url_name url) (min_elo a)
                                 (max_games a) g in
               let! _ := mark_file_processed (url_name url) in
               let! _ := os_remove (url_name url) in
               if reached (max_games a) game_id then ret game_id
               else main_loop a net urls (pf ∪ {[url_name url]}) game_id (d + 1))
                w1 = (o, w') ∧ Q o w').
  { intros fs s w1 Hcase ->.
    unfold bind at 1.
    match goal with
    | |- context [process_pgn_file ?p ?me ?mg ?g0 ?w0] =>
        destruct (process_pgn_file_run p me mg g0 w0 s)
          as (rs & k & o2 & -> & Hids & Hsorted & Ho2 & Hcap);
          [apply lookup_insert_eq|]
    end.
    destruct (Harchive url urls pf g d w fs s rs k HI Hdl Hdone Hcase
                Hids Hsorted Hcap) as [Hraise Hnext].
    destruct Ho2 as [-> | Ho2].
    - unfold bind at 1, mark_file_processed at 1. unfold bind at 1.
      unfold os_remove at 1. cbn [tmp ledger csv fetched games add_games add_rows].
      rewrite lookup_insert_eq, delete_insert_eq.
      cbv zeta in Hnext.
      destruct (reached (max_games a) (g + Z.of_nat k)) eqn:Hmax.
      + eexists _, _. split; [reflexivity|]. exact Hnext.
      + by apply IH.
    - destruct Ho2 as [-> | ->];
        (eexists _, _; split; [reflexivity|]);
        unfold add_games, add_rows; simpl; apply Hraise; auto. }
  unfold bind at 1. unfold download_file.
  destruct (tmp w !! url_name url) as [s|] eqn:Hcached.
  - apply (Hgo [] s); [by left|]. destruct w; simpl in *.
    by rewrite app_nil_r, insert_id.
  - destruct (net url) as [s|] eqn:Hnet.
    + apply (Hgo [url] s); [by right|done].
    + eexists _, _. split; [reflexivity|]. by apply (Hfail url urls pf g d w).
Qed.

End MainLoopRule.

Lemma reached_None (n : Z) : reached None n = false.
Proof. reflexivity. Qed.

Lemma append_ledger_snoc (names : list string) (name : string) (file : option string) :
  Some (default EmptyString (append_ledger names file) +:+ name +:+
        String Str.LF EmptyString) =
    append_ledger (names ++ [name]) file.
Proof. by rewrite <- (append_ledger_app names [name]). Qed.

(** X12: with [--max-games m] for a positive [m], a run meets at most [m]
    games, kept or skipped: the cap counts the games read, not the games
    written. *)
Theorem max_games_cap `{ChessLib} (a : args) (lines : list string)
    (net : string → option stream) (w : world) (m : Z) :
  max_games a = Some m →
  0 < m →
  ∃ n : nat,
    games (main a (Some lines) net w).2 = games w ++ ids_from 0 n ∧
    Z.of_nat n ≤ m.
Proof.
  intros Hm Hpos. unfold main.
  set (inv := λ (g : Z) (w' : world),
         ∃ n : nat, g = Z.of_nat n ∧ games w' = games w ++ ids_from 0 n).
  destruct (main_loop_rule a net
              (λ _ _ g _ w', g < m ∧ inv g w')
              (λ _ w', ∃ n : nat, games w' = games w ++ ids_from 0 n ∧
                                  Z.of_nat n ≤ m))
    with (urls := iter_pgn_urls lines) (pf := load_processed_files (ledger w))
         (g := 0) (d := 0) (w := w) as (o & w' & -> & Hq).
  - intros ? ? g _ w' [Hg (n & -> & Hgames)] _. exists n. split; [done|lia].
  - done.
  - intros ? ? ? g _ w' [Hg (n & -> & Hgames)] _ _ _ _.
    exists n. split; [done|lia].
  - intros url urls pf g d w' fs0 s rs k [Hg (n & -> & Hgames)] _ _ _ _ _ Hcap.
    specialize (Hcap m Hm Hpos Hg).
    assert (Hnext : games w' ++ ids_from (Z.of_nat n) k =
                    games w ++ ids_from 0 (n + k)).
    { rewrite Hgames, <- app_assoc. f_equal. apply (ids_from_app 0). }
    split.
    + intros e _. exists (n + k)%nat. simpl. split; [done|lia].
    + cbv zeta. destruct (reached (max_games a) _) eqn:Hreached.
      * exists (n + k)%nat. simpl. split; [done|lia].
      * rewrite Hm in Hreached. apply (reached_false_lt m _ Hpos) in Hreached.
        split; [done|]. exists (n + k)%nat. simpl. split; [lia|done].
  - split; [lia|]. exists 0%nat. by rewrite ids_from_0, app_nil_r.
  - exact Hq.
Qed.

Lemma max_games_cap_witness :
  ∃ n : nat,
    games (main (Args 2200 (Some 1) None) (Some [Toy.ARCHIVE_URL])
             (Toy.one_archive Toy.ARCHIVE_URL (Toy.scenario_B ++ Toy.scenario_A))
             Toy.empty_world).2 = games Toy.empty_world ++ ids_from 0 n ∧
    Z.of_nat n ≤ 1.
Proof.
  apply (max_games_cap (H := Toy.chess) (Args 2200 (Some 1) None)
           [Toy.ARCHIVE_URL]
           (Toy.one_archive Toy.ARCHIVE_URL (Toy.scenario_B ++ Toy.scenario_A))
           Toy.empty_world 1); [reflexivity|lia].
Defined.

(** X17: the output table is only appended to.  The rows a run adds come
    after the rows that were there, carry identifiers among [1..n] for
    the [n] games the run met, and stand in increasing order of
    identifier, so the rows of one game are adjacent. *)
Theorem output_rows_appended_sorted `{ChessLib} (a : args)
    (index : option (list string)) (net : string → option stream) (w : world) :
  ∃ rs (n : nat),
    csv (main a index net w).2 = csv w ++ rs ∧
    games (main a index net w).2 = games w ++ ids_from 0 n ∧
    Forall (λ r, 0 < row_game_id r ≤ Z.of_nat n) rs ∧
    StronglySorted row_le rs.
Proof.
  unfold main. destruct index as [lines|]; cycle 1.
  { exists [], 0%nat. simpl. rewrite ids_from_0, !app_nil_r.
    repeat split; constructor. }
  set (post := λ (w' : world) (rs : list row) (n : nat),
         csv w' = csv w ++ rs ∧ games w' = games w ++ ids_from 0 n ∧
         Forall (λ r, 0 < row_game_id r ≤ Z.of_nat n) rs ∧
         StronglySorted row_le rs).
  destruct (main_loop_rule a net
              (λ _ _ g _ w', ∃ rs n, g = Z.of_nat n ∧ post w' rs n)
              (λ _ w', ∃ rs n, post w' rs n))
    with (urls := iter_pgn_urls lines) (pf := load_processed_files (ledger w))
         (g := 0) (d := 0) (w := w) as (o & w' & -> & Hq).
  - intros ? ? ? ? w' (rs & n & _ & Hpost) _. by exists rs, n.
  - done.
  - intros ? ? ? ? ? w' (rs & n & _ & Hpost) _ _ _ _. by exists rs, n.
  - intros url urls pf g d w' fs0 s rs' k
      (rs & n & -> & Hcsv & Hgames & Hids & Hsorted) _ _ _ Hids' Hsorted' _.
    assert (Hnext : ∀ l t f,
              post (World l (csv w' ++ rs') t f (games w' ++ ids_from (Z.of_nat n) k))
                   (rs ++ rs') (n + k)%nat).
    { intros l t f. unfold post. simpl.
      rewrite Hcsv, Hgames, <- !app_assoc. split; [done|].
      split; [f_equal; apply (ids_from_app 0)|]. split.
      - apply Forall_app. split.
        + eapply Forall_impl; [exact Hids|]. simpl. lia.
        + eapply Forall_impl; [exact Hids'|]. simpl. lia.
      - apply StronglySorted_app_2; [|done..].
        intros r1 r2 Hr1 Hr2. unfold row_le.
        rewrite Forall_forall in Hids, Hids'.
        specialize (Hids r1 Hr1). specialize (Hids' r2 Hr2). simpl in *. lia. }
    split; [intros e _; eexists _, _; apply Hnext|].
    cbv zeta. destruct (reached _ _); eexists _, _; [apply Hnext|].
    split; [|apply Hnext]. lia.
  - exists [], 0%nat. split; [done|]. unfold post.
    rewrite ids_from_0, !app_nil_r. repeat split; constructor.
  - exact Hq.
Qed.

Lemma reached_uncapped (limit : option Z) (n : Z) :
  uncapped limit → reached limit n = false.
Proof. by intros [-> | ->]. Qed.

Lemma load_append_ledger (names : list string) (file : option string) :
  ledger_ok file → Forall filename_ok names →
  load_processed_files (append_ledger names file) =
    load_processed_files file ∪ list_to_set names.
Proof.
  intros Hfile Hnames. destruct names as [|name names].
  - simpl. by rewrite (right_id_L ∅ (∪)).
  - unfold append_ledger. destruct file as [text|].
    + by apply load_append_lines.
    + apply (load_append_lines (name :: names) EmptyString); [by left|done].
Qed.

Lemma main_loop_all_ledgered `{ChessLib} (a : args) (net : string → option stream)
    (urls : list string) (pf : gset string) (g d : Z) (w : world) :
  Forall (λ url, url_name url ∈ pf) urls →
  main_loop a net urls pf g d w = (Return g, w).
Proof.
  induction 1 as [|url urls Hurl _ IH]; simpl; [done|].
  destruct (reached (downloads a) d); [done|].
  by rewrite bool_decide_eq_true_2.
Qed.

(** X18: resumption after a complete run.  When a run without caps has
    returned, from a well-formed ledger and an index whose archive names
    are clean, every enumerated archive is in the ledger it leaves behind:
    a second run over the same index, whatever its options and whatever
    the network serves, returns zero games and changes nothing. *)
Theorem rerun_after_complete_run `{ChessLib} (a a' : args) (lines : list string)
    (net net' : string → option stream) (w : world) (g : Z) :
  ledger_ok (ledger w) →
  Forall (λ url, filename_ok (url_name url)) (iter_pgn_urls lines) →
  uncapped (max_games a) →
  uncapped (downloads a) →
  (main a (Some lines) net w).1 = Return g →
  main a' (Some lines) net' (main a (Some lines) net w).2 =
    (Return 0, (main a (Some lines) net w).2).
Proof.
  intros Hledger Hclean Hmax Hdl.
  unfold main at 1 3 4.
  set (all := iter_pgn_urls lines) in *.
  set (load0 := load_processed_files (ledger w)).
  destruct (main_loop_rule a net
              (λ urls pf _ _ w', ∃ passed names,
                 all = passed ++ urls ∧
                 Forall (λ url, url_name url ∈ pf) passed ∧
                 pf = load0 ∪ list_to_set names ∧
                 ledger w' = append_ledger names (ledger w) ∧
                 Forall filename_ok names)
              (λ o w', ∀ g, o = Return g →
                 Forall (λ url, url_name url ∈ load_processed_files (ledger w')) all))
    with (urls := all) (pf := load0) (g := 0) (d := 0) (w := w)
    as (o & w' & -> & Hq).
  - intros urls pf g0 d w' (passed & names & Hall & Hpassed & -> & Hl & Hnames)
      [-> | Hreached] g1 _; [|by rewrite reached_uncapped in Hreached].
    rewrite app_nil_r in Hall. subst passed.
    by rewrite Hl, load_append_ledger.
  - intros url urls pf g0 d w' (passed & names & Hall & Hpassed & Hpf & Hl & Hnames)
      _ Hin.
    exists (passed ++ [url]), names. rewrite <- app_assoc.
    split; [done|]. split; [|done].
    apply Forall_app. split; [done|by constructor].
  - done.
  - intros url urls pf g0 d w' fs0 s rs k
      (passed & names & Hall & Hpassed & -> & Hl & Hnames) _ _ _ _ _ _.
    split; [done|]. cbv zeta. rewrite reached_uncapped by done.
    exists (passed ++ [url]), (names ++ [url_name url]). rewrite <- app_assoc.
    split; [done|]. split.
    { apply Forall_app. split.
      - eapply Forall_impl; [exact Hpassed|]. simpl. intros u ?.
        apply elem_of_union. by left.
      - repeat constructor. apply elem_of_union. right.
        by apply elem_of_singleton. }
    split.
    { rewrite list_to_set_app_L. simpl.
      by rewrite (right_id_L ∅ (∪)), (assoc_L (∪)). }
    simpl. rewrite Hl, append_ledger_snoc. split; [done|].
    apply Forall_app. split; [done|]. constructor; [|constructor].
    rewrite Forall_forall in Hclean. apply Hclean. rewrite Hall.
    apply elem_of_app. right. by left.
  - exists [], []. simpl. split; [done|]. split; [constructor|].
    split; [by rewrite (right_id_L ∅ (∪))|]. split; [done|constructor].
  - simpl. intros Hret. unfold main. fold all.
    apply main_loop_all_ledgered. by apply (Hq g).
Qed.

Lemma rerun_after_complete_run_witness :
  main (Args 2200 (Some 1) None) (Some [Toy.ARCHIVE_URL]) (λ _, None)
    (main (Args 2200 None None) (Some [Toy.ARCHIVE_URL])
       (Toy.one_archive Toy.ARCHIVE_URL Toy.scenario_A) Toy.empty_world).2 =
  (Return 0,
   (main (Args 2200 None None) (Some [Toy.ARCHIVE_URL])
      (Toy.one_archive Toy.ARCHIVE_URL Toy.scenario_A) Toy.empty_world).2).
Proof.
  apply (rerun_after_complete_run (H := Toy.chess) (Args 2200 None None)
           (Args 2200 (Some 1) None) [Toy.ARCHIVE_URL]
           (Toy.one_archive Toy.ARCHIVE_URL Toy.scenario_A) (λ _, None)
           Toy.empty_world 1).
  - exact I.
  - assert (Hurls : iter_pgn_urls [Toy.ARCHIVE_URL] = [Toy.ARCHIVE_URL])
      by (vm_compute; reflexivity).
    rewrite Hurls. repeat constructor; [discriminate|vm_compute; reflexivity..].
  - by left.
  - by left.
  - vm_compute. reflexivity.
Defined.

(** ** What the header scanner accepts and returns *)

Lemma split1_sep (sep : ascii) (s : string) :
  Str.mem sep s = true →
  ∃ k v, Str.split1 sep s = [k; v] ∧ Str.mem sep k = false.
Proof.
  induction s as [|c s IH]; [done|]. simpl.
  case_bool_decide as Hc; simpl.
  - intros _. by exists EmptyString, s.
  - intros Hs. destruct (IH Hs) as (k & v & -> & Hk).
    exists (String c k), v. split; [done|]. simpl.
    by rewrite Hk, bool_decide_eq_false_2.
Qed.

Lemma tag_line_ok_iff (line : string) :
  (∃ kv, tag_line line = Ok kv) ↔ Str.mem " " (Str.slice 1 (-2) line) = true.
Proof.
  unfold tag_line. split.
  - intros [kv Hkv]. destruct (Str.mem " " (Str.slice 1 (-2) line)) eqn:Hm; [done|].
    by rewrite split1_no_sep in Hkv.
  - intros Hm. destruct (split1_sep " " _ Hm) as (k & v & -> & _). by eexists.
Qed.

Lemma tag_line_key_value (line key val : string) :
  tag_line line = Ok (key, val) →
  Str.mem " " key = false ∧ Str.strip_char Str.DQUOTE val = val.
Proof.
  unfold tag_line.
  destruct (Str.mem " " (Str.slice 1 (-2) line)) eqn:Hm.
  - destruct (split1_sep " " _ Hm) as (k & v & -> & Hk). simpl.
    intros [= <- <-]. split; [done|]. apply strip_chars_idem.
  - by rewrite split1_no_sep.
Qed.

Lemma parse_tags_ok (lines : list string) (kvs : list (string * string)) :
  parse_tags lines = Ok kvs →
  Forall (λ kv, Str.mem " " kv.1 = false ∧
                Str.strip_char Str.DQUOTE kv.2 = kv.2) kvs.
Proof.
  revert kvs. induction lines as [|line lines IH]; intros kvs; simpl.
  - intros [= <-]. constructor.
  - destruct (tag_line line) as [[key val]|] eqn:Hline; [|done].
    destruct (parse_tags lines) as [kvs'|]; [|done]. intros [= <-].
    constructor; [by apply (tag_line_key_value line)|by apply IH].
Qed.



(** X20: in every header set the scanner returns, no key holds a space
    and no value starts or ends with a double quote. *)
Theorem read_headers_only_keys_values (s : stream) (headers : headers_t)
    (key val : string) :
  (read_headers_only s).1 = Ok headers →
  headers !! key = Some val →
  Str.mem " " key = false ∧ Str.strip_char Str.DQUOTE val = val.
Proof.
  unfold read_headers_only. intros Hok Hlookup.
  destruct (read_headers_loop_spec s ∅) as [Heq Herr].
  destruct (parse_tags (tag_lines s)) as [kvs|e] eqn:Hparse;
    [|by rewrite (Herr e eq_refl) in Hok].
  rewrite Heq in Hok. simpl in Hok. injection Hok as <-.
  rewrite build_headers_list_to_map, (right_id_L ∅ (∪)) in Hlookup.
  apply elem_of_list_to_map_2 in Hlookup. rewrite elem_of_reverse in Hlookup.
  pose proof (parse_tags_ok _ _ Hparse) as Hall.
  rewrite Forall_forall in Hall. exact (Hall _ Hlookup).
Qed.

Lemma read_headers_only_keys_values_witness :
  Str.mem " " "WhiteElo" = false ∧ Str.strip_char Str.DQUOTE "2300" = "2300".
Proof.
  apply (read_headers_only_keys_values Toy.scenario_A
           (Toy.headers_of "2300" "2250" "Rated Classical game" "1-0")
           "WhiteElo" "2300"); vm_compute; reflexivity.
Defined.

(** * The counter of games, the ledger and the cache over a run *)

(** ** The games a run meets *)

Section GamesMet.
Context `{ChessLib}.

(** The loop of the stream processor against the list of the games it
    meets: it logs one identifier for each of them, returns the counter
    moved by their number, or raises on the last of them. *)
Lemma process_games_met fuel min_elo max_games : ∀ game_id s w,
  (length s < fuel)%nat →
  ∃ rs,
    process_games fuel min_elo max_games game_id s w =
      (match (archive_games fuel min_elo max_games game_id s).2 with
       | None =>
           Return (game_id +
                   Z.of_nat (length (archive_games fuel min_elo max_games game_id s).1))
       | Some e => Raise e
       end,
       add_games
         (ids_from game_id (length (archive_games fuel min_elo max_games game_id s).1))
         (add_rows rs w)).
Proof.
  induction fuel as [|fuel IH]; intros game_id s w Hlen; [lia|].
  destruct (read_headers_only s) as [scanned s1] eqn:Hscan.
  destruct scanned as [headers|e]; cycle 1.
  { simpl. rewrite Hscan. exists []. simpl.
    by rewrite ids_from_0, add_rows_nil, add_games_nil. }
  destruct (decide (headers = ∅)) as [Hempty|Hempty].
  { simpl. rewrite Hscan. unfold bind at 1. unfold lift at 1.
    rewrite !bool_decide_eq_true_2 by done. exists []. simpl.
    rewrite ids_from_0, add_rows_nil, add_games_nil, Z.add_0_r. done. }
  rewrite (process_games_turn _ _ _ _ _ _ _ _ Hscan Hempty).
  assert (Hs1 : (length s1 < length s)%nat).
  { destruct s as [|line rest].
    - unfold read_headers_only in Hscan. simpl in Hscan. by simplify_eq.
    - pose proof (read_headers_only_lt (line :: rest)) as Hlt.
      rewrite Hscan in Hlt. by apply Hlt. }
  cbn [archive_games]. rewrite Hscan, bool_decide_eq_false_2 by done.
  unfold bind at 1. unfold lift at 1.
  destruct (headers_pass headers min_elo) as [pass|e]; cycle 1.
  { exists []. simpl. by rewrite ids_from_cons, ids_from_0, add_rows_nil. }
  unfold bind at 1.
  assert (Hnext : ∀ rs s2, (length s2 ≤ length s1)%nat →
    ∃ rs',
      (if reached max_games (game_id + 1) then ret (game_id + 1)
       else process_games fuel min_elo max_games (game_id + 1) s2)
        (add_rows rs (add_games [game_id + 1] w)) =
      (match (met_cons headers (reached max_games (game_id + 1))
                (archive_games fuel min_elo max_games (game_id + 1) s2)).2 with
       | None =>
           Return (game_id + Z.of_nat (length
             (met_cons headers (reached max_games (game_id + 1))
                (archive_games fuel min_elo max_games (game_id + 1) s2)).1))
       | Some e => Raise e
       end,
       add_games
         (ids_from game_id (length
            (met_cons headers (reached max_games (game_id + 1))
               (archive_games fuel min_elo max_games (game_id + 1) s2)).1))
         (add_rows rs' w))).
  { intros rs s2 Hs2. unfold met_cons.
    destruct (reached max_games (game_id + 1)).
    - exists rs. unfold ret. simpl. by rewrite ids_from_cons, ids_from_0.
    - destruct (IH (game_id + 1) s2 (add_rows rs (add_games [game_id + 1] w)))
        as (rs' & ->); [lia|].
      exists (rs ++ rs'). cbn [fst snd length]. f_equal.
      + destruct (archive_games fuel min_elo max_games (game_id + 1) s2).2;
          [done|]. f_equal. lia.
      + rewrite (ids_from_cons game_id). unfold add_games, add_rows; simpl.
        f_equal; by rewrite <- app_assoc. }
  destruct pass.
  - unfold keep_game. destruct (read_game s1) as [[moves|] n].
    + unfold bind at 1. rewrite write_moves_rows. unfold ret at 1.
      apply Hnext. rewrite length_drop. lia.
    + exists []. simpl. by rewrite ids_from_cons, ids_from_0, add_rows_nil.
  - unfold ret at 1. rewrite <- (add_rows_nil (add_games _ w)).
    apply Hnext, skip_moves_le.
Qed.

Lemma process_pgn_file_met pgn_path min_elo max_games game_id w s :
  tmp w !! pgn_path = Some s →
  ∃ rs,
    process_pgn_file pgn_path min_elo max_games game_id w =
      (match (archive_games (S (length s)) min_elo max_games game_id s).2 with
       | None =>
           Return (game_id + Z.of_nat (length
             (archive_games (S (length s)) min_elo max_games game_id s).1))
       | Some e => Raise e
       end,
       add_games
         (ids_from game_id (length
            (archive_games (S (length s)) min_elo max_games game_id s).1))
         (add_rows rs w)).
Proof.
  intros Hfile. unfold process_pgn_file, bind, open_archive. rewrite Hfile.
  apply process_games_met. lia.
Qed.

(** The main loop against the list of the games the run meets. *)
Lemma main_loop_met a net cache urls : ∀ pf game_id downloaded w,
  (∀ name, name ∉ pf → tmp w !! name = cache !! name) →
  ∃ o w',
    main_loop a net urls pf game_id downloaded w = (o, w') ∧
    games w' = games w ++
      ids_from game_id (length (run_games a net cache urls pf game_id downloaded)) ∧
    o ≠ OutOfFuel ∧
    ∀ g, o = Return g →
      g = game_id +
          Z.of_nat (length (run_games a net cache urls pf game_id downloaded)).
Proof.
  induction urls as [|url urls IH]; intros pf game_id downloaded w Hcache.
  { exists (Return game_id), w. simpl. rewrite ids_from_0, app_nil_r.
    split; [done|]. split; [done|]. split; [done|]. intros g [= <-]. lia. }
  simpl main_loop. cbn [run_games].
  destruct (reached (downloads a) downloaded).
  { exists (Return game_id), w. simpl. rewrite ids_from_0, app_nil_r.
    split; [done|]. split; [done|]. split; [done|]. intros g [= <-]. lia. }
  case_bool_decide as Hdone; [by apply IH|].
  rewrite <- (Hcache _ Hdone).
  assert (Hgo : ∀ s w1,
            tmp w1 = <[url_name url := s]> (tmp w) → games w1 = games w →
            ∃ o w',
              (let! game_id := process_pgn_file (url_name url) (min_elo a)
                                 (max_games a) game_id in
               let! _ := mark_file_processed (url_name url) in
               let! _ := os_remove (url_name url) in
               if reached (max_games a) game_id then ret game_id
               else main_loop a net urls (pf ∪ {[url_name url]}) game_id
                      (downloaded + 1)) w1 = (o, w') ∧
              games w' = games w ++
                ids_from game_id (length
                  (let met := archive_games (S (length s)) (min_elo a)
                                (max_games a) game_id s in
                   let game_id' := game_id + Z.of_nat (length met.1) in
                   met.1 ++
                     match met.2 with
                     | Some _ => []
                     | None =>
                         if reached (max_games a) game_id' then []
                         else run_games a net cache urls (pf ∪ {[url_name url]})
                                game_id' (downloaded + 1)
                     end)) ∧
              o ≠ OutOfFuel ∧
              ∀ g, o = Return g →
                g = game_id + Z.of_nat (length
                  (let met := archive_games (S (length s)) (min_elo a)
                                (max_games a) game_id s in
                   let game_id' := game_id + Z.of_nat (length met.1) in
                   met.1 ++
                     match met.2 with
                     | Some _ => []
                     | None =>
                         if reached (max_games a) game_id' then []
                         else run_games a net cache urls (pf ∪ {[url_name url]})
                                game_id' (downloaded + 1)
                     end))).
  { intros s w1 Htmp Hgames. cbv zeta.
    assert (Hfile : tmp w1 !! url_name url = Some s)
      by (by rewrite Htmp, lookup_insert_eq).
    unfold bind at 1.
    destruct (process_pgn_file_met (url_name url) (min_elo a) (max_games a)
                game_id w1 s Hfile) as (rs & ->).
    set (met := archive_games (S (length s)) (min_elo a) (max_games a) game_id s).
    destruct met.2 as [e|].
    { eexists _, _. split; [reflexivity|]. simpl.
      rewrite Hgames, app_nil_r. done. }
    unfold bind at 1, mark_file_processed at 1. unfold bind at 1.
    unfold os_remove at 1. cbn [tmp ledger csv fetched games add_games add_rows].
    rewrite Hfile.
    destruct (reached (max_games a) (game_id + Z.of_nat (length met.1))).
    { eexists _, _. split; [reflexivity|]. simpl.
      rewrite Hgames, app_nil_r. split; [done|]. split; [done|].
      by intros g [= <-]. }
    match goal with
    | |- context [main_loop a net urls ?pf' ?g' ?d' ?w'] =>
        destruct (IH pf' g' d' w') as (o & w'' & -> & Hgs & Ho & Hg)
    end.
    { intros name Hname. simpl.
      apply not_elem_of_union in Hname as [Hname1 Hname2].
      rewrite not_elem_of_singleton in Hname2.
      rewrite lookup_delete_ne by done. rewrite Htmp.
      rewrite lookup_insert_ne by done. by apply Hcache. }
    exists o, w''. split; [done|]. simpl in Hgs.
    rewrite Hgs, Hgames, <- app_assoc, ids_from_app, length_app.
    split; [done|]. split; [done|]. intros g Hret. rewrite (Hg g Hret). lia. }
  unfold bind at 1. unfold download_file.
  destruct (tmp w !! url_name url) as [s|] eqn:Hcached.
  - apply Hgo; [|done]. by rewrite insert_id.
  - destruct (net url) as [s|] eqn:Hnet.
    + by apply Hgo.
    + eexists _, _. split; [reflexivity|]. simpl.
      rewrite ids_from_0, app_nil_r. done.
Qed.

End GamesMet.

(** ** Archives of well-formed games *)

Lemma block_end_BLANK : block_end BLANK = true.
Proof. reflexivity. Qed.

(** The scanner on a well-formed tag block: it reads the block and the
    blank line after it, and what it returns does not depend on what
    follows. *)
Lemma read_headers_loop_tags (tags : list string) (rest : stream) :
  Forall tag_ok tags → ∀ h : headers_t,
  ∃ h', read_headers_loop h (tags ++ BLANK :: rest) = (Ok h', rest) ∧
        (read_headers_loop h tags).1 = Ok h' ∧
        (tags ≠ [] ∨ h ≠ ∅ → h' ≠ ∅).
Proof.
  induction 1 as [|line tags (Hend & Hstart & Hsplit) _ IH]; intros h.
  { exists h. cbn [app read_headers_loop]. rewrite block_end_BLANK.
    split; [done|]. split; [done|]. by intros [?|?]. }
  apply tag_line_ok_iff in Hsplit as [[key val] Htag].
  destruct (IH (<[key:=val]> h)) as (h' & Hscan & Hblock & Hne).
  exists h'. cbn [app read_headers_loop]. rewrite Hend, Hstart, Htag.
  split; [done|]. split; [done|]. intros _. apply Hne. right.
  apply insert_non_empty.
Qed.

Lemma read_headers_only_game (g : pgn_game) (rest : stream) :
  game_ok g →
  read_headers_only (game_tags g ++ BLANK :: rest) = (Ok (game_headers g), rest) ∧
  game_headers g ≠ ∅.
Proof.
  intros (Hne & Htags & _).
  destruct (read_headers_loop_tags (game_tags g) rest Htags ∅)
    as (h' & Hscan & Hblock & Hh').
  unfold game_headers, read_headers_only. rewrite Hblock.
  split; [done|]. apply Hh'. by left.
Qed.

Lemma skip_moves_movetext (lines : list string) (rest : stream) :
  Forall (λ line, block_end line = false) lines →
  skip_moves (lines ++ BLANK :: rest) = rest.
Proof.
  induction 1 as [|line lines Hline _ IH]; cbn [app skip_moves].
  - by rewrite block_end_BLANK.
  - by rewrite Hline.
Qed.

Lemma archive_lines_cons (g : pgn_game) (gs : list pgn_game) :
  archive_lines (g :: gs) =
    game_tags g ++ BLANK :: (game_movetext g ++ BLANK :: archive_lines gs).
Proof.
  unfold archive_lines, game_lines. simpl.
  rewrite <- !app_assoc. simpl. by rewrite <- app_assoc.
Qed.

Section ArchiveOfGames.
Context `{ChessLib}.

(** An archive that is a sequence of well-formed games, read without a
    cap: every game moves the counter by one, kept or skipped. *)
Lemma process_games_archive min_elo max_games (gs : list pgn_game) :
  Forall game_ok gs → Forall game_parses gs →
  Forall (game_filters min_elo) gs → uncapped max_games →
  ∀ fuel game_id w,
    (length (archive_lines gs) < fuel)%nat →
    ∃ rs,
      process_games fuel min_elo max_games game_id (archive_lines gs) w =
        (Return (game_id + Z.of_nat (length gs)),
         add_games (ids_from game_id (length gs)) (add_rows rs w)).
Proof.
  intros Hok Hparse Hfilter Hcap. revert Hparse Hfilter.
  induction Hok as [|g gs Hg _ IH]; intros Hparse Hfilter fuel game_id w Hlen.
  { destruct fuel as [|fuel]; [simpl in Hlen; lia|].
    exists []. simpl. unfold bind, lift, ret. simpl.
    rewrite ids_from_0, add_rows_nil, add_games_nil, Z.add_0_r. done. }
  apply Forall_cons in Hparse as [Hparse Hparses].
  apply Forall_cons in Hfilter as [[pass Hpass] Hfilters].
  destruct fuel as [|fuel]; [lia|].
  rewrite archive_lines_cons in *.
  destruct (read_headers_only_game g
              (game_movetext g ++ BLANK :: archive_lines gs) Hg) as [Hscan Hne].
  rewrite (process_games_turn _ _ _ _ _ _ _ _ Hscan Hne).
  unfold bind at 1. unfold lift at 1. rewrite Hpass.
  unfold bind at 1.
  assert (Hfuel : (length (archive_lines gs) < fuel)%nat).
  { rewrite length_app in Hlen. simpl in Hlen.
    rewrite length_app in Hlen. simpl in Hlen. lia. }
  rewrite (reached_uncapped _ _ Hcap).
  assert (Hrest : ∀ rs, ∃ rs',
            process_games fuel min_elo max_games (game_id + 1) (archive_lines gs)
              (add_rows rs (add_games [game_id + 1] w)) =
            (Return (game_id + Z.of_nat (length (g :: gs))),
             add_games (ids_from game_id (length (g :: gs))) (add_rows rs' w))).
  { intros rs.
    destruct (IH Hparses Hfilters fuel (game_id + 1)
                (add_rows rs (add_games [game_id + 1] w)) Hfuel) as (rs' & ->).
    exists (rs ++ rs'). f_equal; [f_equal; simpl length; lia|].
    simpl length. rewrite (ids_from_cons game_id).
    unfold add_games, add_rows; simpl. f_equal; by rewrite <- app_assoc. }
  destruct pass.
  - unfold keep_game. destruct (Hparse (archive_lines gs)) as (moves & ->).
    unfold bind at 1. rewrite write_moves_rows. unfold ret at 1.
    replace (game_movetext g ++ BLANK :: archive_lines gs)
      with ((game_movetext g ++ [BLANK]) ++ archive_lines gs)
      by (by rewrite <- app_assoc).
    rewrite drop_app_length' by (rewrite length_app; simpl; lia).
    apply Hrest.
  - unfold ret at 1. rewrite skip_moves_movetext by apply Hg.
    rewrite <- (add_rows_nil (add_games _ w)). apply Hrest.
Qed.

End ArchiveOfGames.

(** ** Names on one line *)

Lemma mem_split (c sep : ascii) (s : string) :
  Str.mem c s = false → Forall (λ part, Str.mem c part = false) (Str.split sep s).
Proof.
  induction s as [|d s IH]; [by repeat constructor|]. simpl.
  intros [Hd Hs]%orb_false_elim. specialize (IH Hs).
  destruct (bool_decide (d = sep)); [by constructor|].
  destruct (Str.split sep s) as [|h t].
  - repeat constructor. simpl. by rewrite Hd.
  - inversion_clear IH as [|? ? Hh Ht]. constructor; [|done].
    simpl. by rewrite Hd, Hh.
Qed.

Lemma url_name_single_line (url : string) :
  single_line url → single_line (url_name url).
Proof.
  unfold single_line, url_name. intros Hurl.
  pose proof (mem_split Str.LF "/" url Hurl) as Hparts.
  induction Hparts as [|part parts Hpart Hparts IH]; [done|].
  destruct parts; [done|exact IH].
Qed.

Lemma iter_pgn_urls_single_line (lines : list string) :
  Forall single_line lines →
  Forall single_line (map url_name (iter_pgn_urls lines)).
Proof.
  induction 1 as [|line lines Hline _ IH]; [constructor|]. simpl.
  destruct (nonempty line && Str.endswith PGN_SUFFIX line); [|done].
  constructor; [|done]. apply url_name_single_line.
  by apply mem_rstrip, mem_lstrip.
Qed.

Lemma append_cancel_l (x a b : string) : x +:+ a = x +:+ b → a = b.
Proof. induction x as [|c x IH]; simpl; [done|]. intros [= ?]. by apply IH. Qed.

Lemma append_self_nil (x a : string) : x = x +:+ a → a = EmptyString.
Proof.
  intros Heq. apply (append_cancel_l x). by rewrite append_nil_r.
Qed.

Lemma line_inj (a b ta tb : string) :
  single_line a → single_line b →
  a +:+ String Str.LF ta = b +:+ String Str.LF tb → a = b ∧ ta = tb.
Proof.
  unfold single_line. revert b.
  induction a as [|c a IH]; intros [|d b]; simpl.
  - by intros _ _ [= ->].
  - intros _ [Hd _]%orb_false_elim [= <- _].
    by rewrite bool_decide_eq_true_2 in Hd.
  - intros [Hc _]%orb_false_elim _ [= -> _].
    by rewrite bool_decide_eq_true_2 in Hc.
  - intros [_ Ha]%orb_false_elim [_ Hb]%orb_false_elim [= -> Heq].
    destruct (IH b Ha Hb Heq) as [-> ->]. done.
Qed.

Lemma ledger_lines_inj (a : list string) : ∀ b,
  Forall single_line a → Forall single_line b →
  ledger_lines a = ledger_lines b → a = b.
Proof.
  induction a as [|x a IH]; intros [|y b] Ha Hb; simpl; try done.
  - destruct y; done.
  - destruct x; done.
  - inversion_clear Ha as [|? ? Hx Ha']. inversion_clear Hb as [|? ? Hy Hb'].
    intros Heq. destruct (line_inj _ _ _ _ Hx Hy Heq) as [-> Hrest].
    f_equal. by apply IH.
Qed.

(** The names a ledger grew by are determined by the ledger before and
    the ledger after. *)
Lemma appended_names_unique (before after : option string) (a b : list string) :
  appended_names before after a → appended_names before after b → a = b.
Proof.
  intros [-> Ha] [Heq Hb]. unfold append_ledger in Heq.
  assert (Hnil : ∀ x l, ledger_lines (x :: l) ≠ EmptyString).
  { intros x l. simpl. by destruct x. }
  destruct a as [|x a], b as [|y b]; [done| | |].
  - destruct before as [text|]; [|done]. injection Heq as Heq.
    by apply append_self_nil, Hnil in Heq.
  - destruct before as [text|]; [|done]. injection Heq as Heq.
    symmetry in Heq. by apply append_self_nil, Hnil in Heq.
  - injection Heq as Heq. apply append_cancel_l in Heq.
    by apply ledger_lines_inj.
Qed.

Lemma sublist_Forall {A} (P : A → Prop) (l k : list A) :
  l `sublist_of` k → Forall P k → Forall P l.
Proof.
  intros Hsub Hk. rewrite Forall_forall in *.
  intros x Hx. apply Hk. by apply (elem_of_sublist l).
Qed.

(** ** The ledger, the cache and the requests of a run *)

(** What a run leaves behind.  [before] are the URLs of the index the run
    went past, [rest] those it did not get to or stopped at; [names] are
    the names it appended to the ledger, [fs] the requests it sent, [d]
    a bound on both. *)
Lemma main_run_ledger `{ChessLib} (a : args) (lines : list string)
    (net : string → option stream) (w : world) :
  ∃ names fs before rest d,
    iter_pgn_urls lines = before ++ rest ∧
    ledger (main a (Some lines) net w).2 = append_ledger names (ledger w) ∧
    names `sublist_of` map url_name before ∧
    NoDup names ∧
    Forall (λ name, name ∉ load_processed_files (ledger w)) names ∧
    Forall (λ url, url_name url ∈
                     load_processed_files (ledger w) ∪ list_to_set names) before ∧
    Forall (λ name, tmp (main a (Some lines) net w).2 !! name = None) names ∧
    fetched (main a (Some lines) net w).2 = fetched w ++ fs ∧
    Z.of_nat (length names) ≤ d ∧ Z.of_nat (length fs) ≤ d ∧
    (∀ c, downloads a = Some c → 0 < c → d ≤ c) ∧
    ∀ e, (main a (Some lines) net w).1 = Raise e → e ≠ HTTPError →
      ∃ url rest' s,
        rest = url :: rest' ∧
        (url_name url ∉ load_processed_files (ledger w)) ∧
        (url_name url ∉ names) ∧
        tmp (main a (Some lines) net w).2 !! url_name url = Some s ∧
        (tmp w !! url_name url = Some s ∨
         tmp w !! url_name url = None ∧ net url = Some s).
Proof.
  unfold main.
  set (load0 := load_processed_files (ledger w)).
  set (common := λ (names fs before : list string) (d : Z) (w' : world),
         ledger w' = append_ledger names (ledger w) ∧
         names `sublist_of` map url_name before ∧
         NoDup names ∧
         Forall (λ name, name ∉ load0) names ∧
         Forall (λ url, url_name url ∈ load0 ∪ list_to_set names) before ∧
         Forall (λ name, tmp w' !! name = None) names ∧
         fetched w' = fetched w ++ fs ∧
         Z.of_nat (length names) ≤ d ∧ Z.of_nat (length fs) ≤ d ∧
         (∀ c, downloads a = Some c → 0 < c → d ≤ c)).
  destruct (main_loop_rule a net
    (λ urls pf _ d w', ∃ names fs before,
       iter_pgn_urls lines = before ++ urls ∧
       pf = load0 ∪ list_to_set names ∧
       common names fs before d w' ∧
       ∀ name, name ∉ pf → tmp w' !! name = tmp w !! name)
    (λ o w', ∃ names fs before rest d,
       iter_pgn_urls lines = before ++ rest ∧
       common names fs before d w' ∧
       ∀ e, o = Raise e → e ≠ HTTPError →
         ∃ url rest' s,
           rest = url :: rest' ∧ (url_name url ∉ load0) ∧
           (url_name url ∉ names) ∧
           tmp w' !! url_name url = Some s ∧
           (tmp w !! url_name url = Some s ∨
            tmp w !! url_name url = None ∧ net url = Some s)))
    with (urls := iter_pgn_urls lines) (pf := load0)
         (g := 0) (d := 0) (w := w) as (o & w' & -> & Hq).
  - intros urls ? ? d w' (names & fs & before & Hall & _ & Hcommon & _) _.
    exists names, fs, before, urls, d. split; [done|]. split; [done|]. done.
  - intros url urls pf ? d w' (names & fs & before & Hall & -> & Hcommon & Hframe)
      _ Hin.
    exists names, fs, (before ++ [url]).
    split; [by rewrite <- app_assoc|]. split; [done|]. split; [|done].
    destruct Hcommon as (? & Hsub & ? & ? & Hbefore & Hrest).
    split; [done|]. split.
    { rewrite map_app. by apply sublist_inserts_r. }
    split; [done|]. split; [done|]. split; [|exact Hrest].
    apply Forall_app. split; [done|]. by repeat constructor.
  - intros url urls pf ? d w' (names & fs & before & Hall & -> & Hcommon & Hframe)
      Hdl _ _ _.
    exists names, (fs ++ [url]), before, (url :: urls), (d + 1).
    split; [done|]. split; [|by intros e [= <-]].
    destruct Hcommon as (? & ? & ? & ? & ? & ? & Hf & ? & ? & Hcap).
    unfold common. simpl. rewrite Hf, <- app_assoc, length_app. simpl.
    repeat split; try done; try lia.
    intros c Hc Hpos. rewrite Hc in Hdl.
    pose proof (reached_false_lt _ _ Hpos Hdl). lia.
  - intros url urls pf g d w' fs0 s rs k
      (names & fs & before & Hall & -> & Hcommon & Hframe) Hdl Hnew Hcase _ _ _.
    destruct Hcommon as (Hl & Hsub & Hdup & Hfresh & Hbefore & Hgone & Hf & Hn &
                         Hfs & Hcap).
    pose proof Hnew as Hnew'.
    apply not_elem_of_union in Hnew' as [Hnew1 Hnew2].
    rewrite elem_of_list_to_set in Hnew2.
    assert (Hfs0 : (length fs0 ≤ 1)%nat).
    { destruct Hcase as [[_ ->]|(_ & _ & ->)]; simpl; lia. }
    assert (Hcap' : ∀ c, downloads a = Some c → 0 < c → d + 1 ≤ c).
    { intros c Hc Hpos. rewrite Hc in Hdl.
      pose proof (reached_false_lt _ _ Hpos Hdl). lia. }
    assert (Hother : Forall (λ name, name ≠ url_name url) names).
    { apply Forall_forall. intros name Hin ->. done. }
    split.
    { intros e He. exists names, (fs ++ fs0), before, (url :: urls), (d + 1).
      split; [done|]. split.
      - unfold common. simpl. rewrite Hf, <- app_assoc, length_app.
        repeat split; try done; try lia.
        rewrite Forall_forall in Hgone, Hother. apply Forall_forall.
        intros name Hin.
        rewrite lookup_insert_ne by (by apply not_eq_sym, Hother).
        by apply Hgone.
      - intros e' _ _. exists url, urls, s. simpl.
        rewrite lookup_insert_eq. repeat split; try done.
        rewrite <- (Hframe _ Hnew).
        destruct Hcase as [[? _]|(? & ? & _)]; [by left|by right]. }
    assert (Hnext : common (names ++ [url_name url]) (fs ++ fs0) (before ++ [url])
        (d + 1)
        (World (Some (default EmptyString (ledger w') +:+ url_name url +:+
                      String Str.LF EmptyString))
               (csv w' ++ rs) (delete (url_name url) (tmp w'))
               (fetched w' ++ fs0) (games w' ++ ids_from g k))).
    { unfold common. simpl.
      rewrite Hl, append_ledger_snoc, Hf, <- app_assoc, !length_app.
      split; [done|]. split.
      { rewrite map_app. by apply sublist_app. }
      split.
      { apply NoDup_app. split; [done|]. split; [|apply NoDup_singleton].
        intros x Hx ->%list_elem_of_singleton. done. }
      split.
      { apply Forall_app. split; [done|]. by repeat constructor. }
      split.
      { apply Forall_app. split.
        - eapply Forall_impl; [exact Hbefore|]. simpl. intros u Hu.
          rewrite list_to_set_app_L, (assoc_L (∪)). by apply elem_of_union_l.
        - repeat constructor. rewrite list_to_set_app_L.
          apply elem_of_union_r, elem_of_union_r. simpl.
          by apply elem_of_union_l, elem_of_singleton. }
      split.
      { apply Forall_app. split; [|repeat constructor; apply lookup_delete_eq].
        rewrite Forall_forall in Hgone, Hother. apply Forall_forall.
        intros name Hin.
        rewrite lookup_delete_ne by (by apply not_eq_sym, Hother).
        by apply Hgone. }
      split; [done|]. simpl. split; [lia|]. split; [lia|done]. }
    cbv zeta. destruct (reached (max_games a) (g + Z.of_nat k)).
    + exists (names ++ [url_name url]), (fs ++ fs0), (before ++ [url]), urls,
        (d + 1).
      split; [by rewrite <- app_assoc|]. split; [done|]. by intros e [=].
    + exists (names ++ [url_name url]), (fs ++ fs0), (before ++ [url]).
      split; [by rewrite <- app_assoc|]. split.
      { rewrite list_to_set_app_L. simpl.
        by rewrite (right_id_L ∅ (∪)), (assoc_L (∪)). }
      split; [done|]. intros name Hname. simpl.
      apply not_elem_of_union in Hname as [Hname1 Hname2].
      rewrite not_elem_of_singleton in Hname2.
      rewrite lookup_delete_ne by done. by apply Hframe.
  - exists [], [], []. split; [done|]. split.
    { simpl. by rewrite (right_id_L ∅ (∪)). }
    split; [|done]. unfold common. simpl. rewrite app_nil_r.
    repeat split; try done; try constructor. intros; lia.
  - destruct Hq as (names & fs & before & rest & d & Hall & Hcommon & Hfail).
    exists names, fs, before, rest, d. split; [done|].
    destruct Hcommon as (? & ? & ? & ? & ? & ? & ? & ? & ? & ?).
    repeat split; done.
Qed.

(** C2: the counter [game_id] moves by exactly one for every game met,
    kept or skipped, and the identifiers of a run are [1, ..., n] for the
    [n] games it met.
    - One game: when the scanner returns a header set that is not empty,
      the loop logs [game_id + 1] before the filter runs, and goes on from
      [game_id + 1] whether the game is kept or skipped.
    - One archive: the identifiers logged while it is processed from
      [start_game_id] are [start_game_id + 1, ..., start_game_id + k] for
      the [k] games met in it ([archive_games]), and the call returns
      [start_game_id + k] unless one of them made it raise.  For an
      archive that is a sequence of [k] well-formed games, read without a
      cap by a parser that takes the movetext and a filter that returns,
      this is the number of games of the archive.
    - One run: the identifiers logged are [1, ..., n], in this order, for
      the [n] games met in the archives taken up ([run_games]), and the
      run reports [n].
    Neither the call nor the run uses up the fuel of the model. *)
Theorem game_ids_contiguous `{ChessLib} :
  (∀ fuel min_elo max_games game_id s w headers s1,
     read_headers_only s = (Ok headers, s1) →
     headers ≠ ∅ →
     process_games (S fuel) min_elo max_games game_id s w =
       (let! pass := lift (headers_pass headers min_elo) in
        let! s2 := (if pass then keep_game (game_id + 1) headers s1
                    else ret (skip_moves s1)) in
        if reached max_games (game_id + 1) then ret (game_id + 1)
        else process_games fuel min_elo max_games (game_id + 1) s2)
       (add_games [game_id + 1] w)) ∧
  (∀ pgn_path min_elo max_games start_game_id w s,
     tmp w !! pgn_path = Some s →
     games (process_pgn_file pgn_path min_elo max_games start_game_id w).2 =
       games w ++
       ids_from start_game_id
         (length (archive_games (S (length s)) min_elo max_games start_game_id s).1) ∧
     (process_pgn_file pgn_path min_elo max_games start_game_id w).1 =
       match (archive_games (S (length s)) min_elo max_games start_game_id s).2 with
       | None =>
           Return (start_game_id + Z.of_nat (length
             (archive_games (S (length s)) min_elo max_games start_game_id s).1))
       | Some e => Raise e
       end) ∧
  (∀ pgn_path min_elo max_games start_game_id w gs,
     tmp w !! pgn_path = Some (archive_lines gs) →
     Forall game_ok gs →
     Forall game_parses gs →
     Forall (game_filters min_elo) gs →
     uncapped max_games →
     games (process_pgn_file pgn_path min_elo max_games start_game_id w).2 =
       games w ++ ids_from start_game_id (length gs) ∧
     (process_pgn_file pgn_path min_elo max_games start_game_id w).1 =
       Return (start_game_id + Z.of_nat (length gs))) ∧
  (∀ pgn_path min_elo max_games start_game_id w,
     ∃ k : nat,
       games (process_pgn_file pgn_path min_elo max_games start_game_id w).2 =
         games w ++ ids_from start_game_id k ∧
       (process_pgn_file pgn_path min_elo max_games start_game_id w).1 ≠ OutOfFuel ∧
       ∀ g, (process_pgn_file pgn_path min_elo max_games start_game_id w).1 = Return g →
            g = start_game_id + Z.of_nat k) ∧
  (∀ a lines net w,
     games (main a (Some lines) net w).2 =
       games w ++
       ids_from 0 (length (run_games a net (tmp w) (iter_pgn_urls lines)
                             (load_processed_files (ledger w)) 0 0)) ∧
     (main a (Some lines) net w).1 ≠ OutOfFuel ∧
     ∀ g, (main a (Some lines) net w).1 = Return g →
          g = Z.of_nat (length (run_games a net (tmp w) (iter_pgn_urls lines)
                                  (load_processed_files (ledger w)) 0 0))) ∧
  (∀ a index net w,
     ∃ n : nat,
       games (main a index net w).2 = games w ++ ids_from 0 n ∧
       (main a index net w).1 ≠ OutOfFuel ∧
       ∀ g, (main a index net w).1 = Return g → g = Z.of_nat n).
Proof.
  split; [intros; by apply process_games_turn|].
  split.
  { intros pgn_path min_elo max_games start w s Hfile.
    destruct (process_pgn_file_met pgn_path min_elo max_games start w s Hfile)
      as (rs & ->). done. }
  split.
  { intros pgn_path min_elo max_games start w gs Hfile Hok Hparse Hfilter Hcap.
    unfold process_pgn_file, bind, open_archive. rewrite Hfile.
    destruct (process_games_archive min_elo max_games gs Hok Hparse Hfilter Hcap
                (S (length (archive_lines gs))) start w) as (rs & ->); [lia|].
    done. }
  split.
  { intros pgn_path min_elo max_games start w.
    destruct (process_pgn_file_world pgn_path min_elo max_games start w)
      as (rs & k & o & -> & _ & Ho & Hg).
    exists k. done. }
  split.
  { intros a lines net w. unfold main.
    destruct (main_loop_met a net (tmp w) (iter_pgn_urls lines)
                (load_processed_files (ledger w)) 0 0 w)
      as (o & w' & -> & Hgs & Ho & Hg); [done|].
    simpl. split; [done|]. split; [done|]. intros g ?. by rewrite (Hg g). }
  intros a index net w. unfold main. destruct index as [lines|].
  - destruct (main_loop_games a net (iter_pgn_urls lines)
                (load_processed_files (ledger w)) 0 0 w)
      as (k & o & w' & -> & Hgs & Ho & Hg).
    exists k. simpl. split; [done|]. split; [done|].
    intros g ?. by rewrite (Hg g).
  - exists 0%nat. simpl. rewrite ids_from_0, app_nil_r. done.
Qed.

Lemma game_ids_contiguous_witness :
  games (process_pgn_file "a.pgn.zst" 2200 None 0
           (World None [] {["a.pgn.zst" := Toy.scenario_B ++ Toy.scenario_A]} [] [])).2 =
    [] ++ ids_from 0 2 ∧
  (process_pgn_file "a.pgn.zst" 2200 None 0
     (World None [] {["a.pgn.zst" := Toy.scenario_B ++ Toy.scenario_A]} [] [])).1 =
    Return (0 + 2).
Proof.
  apply (proj1 (proj2 (proj2 (game_ids_contiguous (H := Toy.chess))))
           "a.pgn.zst" 2200 None 0
           (World None [] {["a.pgn.zst" := Toy.scenario_B ++ Toy.scenario_A]} [] [])
           [PgnGame [Toy.tag "Event" "Rated Classical game"; Toy.tag "WhiteElo" "1800";
                     Toy.tag "BlackElo" "2250"; Toy.tag "Result" "1-0"]
                    ["1. e4 e5 2. Nf3 1-0" +:+ Toy.NL];
            PgnGame [Toy.tag "Event" "Rated Classical game"; Toy.tag "WhiteElo" "2300";
                     Toy.tag "BlackElo" "2250"; Toy.tag "Result" "1-0"]
                    ["1. e4 e5 2. Nf3 1-0" +:+ Toy.NL]]).
  - reflexivity.
  - repeat constructor; discriminate.
  - repeat constructor; intros rest; eexists; reflexivity.
  - constructor; [by exists false|]. constructor; [by exists true|constructor].
  - by left.
Defined.

(** X11: with [--downloads c] for a positive [c], a run appends at most
    [c] names to the ledger, each on a line of its own, and sends at most
    [c] requests for archives to the network; an archive found in the
    cache counts as a download.  The index lines are lines: they hold no
    line feed. *)
Theorem downloads_cap `{ChessLib} (a : args) (lines : list string)
    (net : string → option stream) (w : world) (c : Z) :
  downloads a = Some c →
  0 < c →
  Forall single_line lines →
  ∃ names fs,
    appended_names (ledger w) (ledger (main a (Some lines) net w).2) names ∧
    fetched (main a (Some lines) net w).2 = fetched w ++ fs ∧
    Z.of_nat (length names) ≤ c ∧ Z.of_nat (length fs) ≤ c.
Proof.
  intros Hc Hpos Hlines.
  destruct (main_run_ledger a lines net w)
    as (names & fs & before & rest & d & Hall & Hl & Hsub & _ & _ & _ & _ &
        Hf & Hn & Hfs & Hcap & _).
  specialize (Hcap c Hc Hpos). exists names, fs.
  split; [|split; [done|lia]]. split; [done|].
  apply (sublist_Forall _ _ _ Hsub).
  pose proof (iter_pgn_urls_single_line lines Hlines) as Hurls.
  rewrite Hall, map_app in Hurls. by apply Forall_app in Hurls as [? _].
Qed.

Lemma downloads_cap_witness :
  ∃ names fs,
    appended_names (ledger Toy.empty_world)
      (ledger (main (Args 2200 None (Some 1))
                 (Some [Toy.ARCHIVE_URL; "https://h/b.pgn.zst"])
                 (λ _, Some Toy.scenario_A) Toy.empty_world).2) names ∧
    fetched (main (Args 2200 None (Some 1))
               (Some [Toy.ARCHIVE_URL; "https://h/b.pgn.zst"])
               (λ _, Some Toy.scenario_A) Toy.empty_world).2 =
      fetched Toy.empty_world ++ fs ∧
    Z.of_nat (length names) ≤ 1 ∧ Z.of_nat (length fs) ≤ 1.
Proof.
  apply (downloads_cap (H := Toy.chess) (Args 2200 None (Some 1))
           [Toy.ARCHIVE_URL; "https://h/b.pgn.zst"]
           (λ _, Some Toy.scenario_A) Toy.empty_world 1);
    [reflexivity|lia|repeat constructor].
Defined.

(** X13: [main] never fails to find the archive it works on: the file it
    opens for processing and removes afterwards is the one [download_file]
    found in the cache or wrote there, so neither [open] nor [os.remove]
    raises [FileNotFoundError]. *)
Theorem main_finds_archive_file `{ChessLib} (a : args)
    (index : option (list string)) (net : string → option stream) (w : world) :
  file_not_found (main a index net w).1 = false.
Proof.
  unfold main. destruct index as [lines|]; [|done].
  destruct (main_loop_rule a net (λ _ _ _ _ _, True)
              (λ o _, file_not_found o = false))
    with (urls := iter_pgn_urls lines) (pf := load_processed_files (ledger w))
         (g := 0) (d := 0) (w := w) as (o & w' & -> & Hq); try done.
  intros url urls pf g d w' fs0 s rs k _ _ _ _ _ _ _. split.
  - by intros e [-> | ->].
  - cbv zeta. by destruct (reached _ _).
Qed.

(** X14: a file name is ledgered at most once: the names a run appends to
    the ledger, each on a line of its own, are pairwise distinct and none
    of them was in the ledger the run loaded. *)
Theorem ledger_names_fresh `{ChessLib} (a : args) (lines : list string)
    (net : string → option stream) (w : world) :
  Forall single_line lines →
  ∃ names,
    appended_names (ledger w) (ledger (main a (Some lines) net w).2) names ∧
    NoDup names ∧
    Forall (λ name, name ∉ load_processed_files (ledger w)) names.
Proof.
  intros Hlines.
  destruct (main_run_ledger a lines net w)
    as (names & fs & before & rest & d & Hall & Hl & Hsub & Hdup & Hfresh & _).
  exists names. split; [|done]. split; [done|].
  apply (sublist_Forall _ _ _ Hsub).
  pose proof (iter_pgn_urls_single_line lines Hlines) as Hurls.
  rewrite Hall, map_app in Hurls. by apply Forall_app in Hurls as [? _].
Qed.

Lemma ledger_names_fresh_witness :
  ∃ names,
    appended_names (ledger Toy.empty_world)
      (ledger (main (Args 2200 None None)
                 (Some [Toy.ARCHIVE_URL; Toy.ARCHIVE_URL])
                 (λ _, Some Toy.scenario_A) Toy.empty_world).2) names ∧
    NoDup names ∧
    Forall (λ name, name ∉ load_processed_files (ledger Toy.empty_world)) names.
Proof.
  apply (ledger_names_fresh (H := Toy.chess) (Args 2200 None None)
           [Toy.ARCHIVE_URL; Toy.ARCHIVE_URL]
           (λ _, Some Toy.scenario_A) Toy.empty_world).
  repeat constructor.
Defined.

(** X15: when a run is over, however it ended, the local file of every
    archive whose name it appended to the ledger is gone from the cache. *)
Theorem ledgered_archives_removed `{ChessLib} (a : args) (lines : list string)
    (net : string → option stream) (w : world) :
  Forall single_line lines →
  ∃ names,
    appended_names (ledger w) (ledger (main a (Some lines) net w).2) names ∧
    Forall (λ name, tmp (main a (Some lines) net w).2 !! name = None) names.
Proof.
  intros Hlines.
  destruct (main_run_ledger a lines net w)
    as (names & fs & before & rest & d & Hall & Hl & Hsub & _ & _ & _ & Hgone & _).
  exists names. split; [|done]. split; [done|].
  apply (sublist_Forall _ _ _ Hsub).
  pose proof (iter_pgn_urls_single_line lines Hlines) as Hurls.
  rewrite Hall, map_app in Hurls. by apply Forall_app in Hurls as [? _].
Qed.

Lemma ledgered_archives_removed_witness :
  ∃ names,
    appended_names (ledger Toy.empty_world)
      (ledger (main (Args 2200 None None)
                 (Some [Toy.ARCHIVE_URL; "https://h/b.pgn.zst"])
                 (λ _, Some Toy.scenario_A) Toy.empty_world).2) names ∧
    Forall (λ name,
              tmp (main (Args 2200 None None)
                     (Some [Toy.ARCHIVE_URL; "https://h/b.pgn.zst"])
                     (λ _, Some Toy.scenario_A) Toy.empty_world).2 !! name = None)
           names.
Proof.
  apply (ledgered_archives_removed (H := Toy.chess) (Args 2200 None None)
           [Toy.ARCHIVE_URL; "https://h/b.pgn.zst"]
           (λ _, Some Toy.scenario_A) Toy.empty_world).
  repeat constructor.
Defined.


